(** * Counterweight stack: a rule-gated LIFO container

    Shallow embedding of [src/src/counterweight-stack.ts] and proofs of the
    properties its specification states.

    Layout:
    - [value]: the JavaScript values the element type [T] ranges over;
    - [outcome], [M]: completion of a method call (normal return or a thrown
      error) and the state-and-error monad the methods run in;
    - Section [Engine]: the methods of class [CounterweightStack], generic in
      the comparator [deepEqual] imported from package objects-deep-compare;
    - Module [Heap]: the class in memory, where elements, counterweights
      arrays, rule objects and rule arrays are objects held by reference; the
      constructor ([structuredClone] with its shallow-copy fallback) and the
      caller's later writes.  On typed memory whose rule array has no hole it
      agrees with the engine ([engine_agrees]). *)

From Stdlib Require Import ZArith List Bool Lia.
From stdpp Require Import base option list strings gmap.
Import ListNotations.

Set Warnings "-register-all".

Open Scope Z_scope.
Open Scope nat_scope.

(** ** JavaScript values

    The class is generic in [T]; nothing in it inspects an element except the
    strict test [topElement === undefined] and the calls of [deepEqual].
    Elements are immutable trees here: primitives, functions (opaque, named by
    an identifier), arrays and plain objects.  Numbers are integers.  The
    engine computes with the contents of the elements; objects that are held
    by reference and written to in place are the matter of Module [Heap]. *)

Inductive value : Type :=
| VUndefined
| VNull
| VBool (b : bool)
| VNum (n : Z)
| VStr (s : string)
| VFun (id : nat)
| VArr (elems : list value)
| VObj (fields : list (string * value)).

(** [v === undefined] *)
Definition is_undefined (v : value) : bool :=
  match v with
  | VUndefined => true
  | _ => false
  end.

(** interface CounterweightRule<T> *)
Record CounterweightRule : Type := mkRule {
  mainElement : value;
  counterweights : list value
}.

(** The private fields of an instance.  [items] is the JavaScript array as it
    is laid out: index 0 first, the top of the stack last; its length is not
    bounded.  [rules] is the table the instance reads, rule by rule in array
    order (Module [Heap] says where that table lives). *)
Record CounterweightStack : Type := mkStack {
  items : list value;
  rules : list CounterweightRule
}.

(** ** Completions and the method monad *)

Inductive js_error : Type :=
| TypeError
| DataCloneError.

Inductive outcome (A : Type) : Type :=
| Returns (a : A)
| Throws (e : js_error).

Arguments Returns {A} a.
Arguments Throws {A} e.

(** A method body: reads and writes the fields of [this], and either returns
    a result with the updated instance or throws. *)
Definition M (A : Type) : Type :=
  CounterweightStack -> outcome (A * CounterweightStack).

Definition ret {A} (a : A) : M A := fun this => Returns (a, this).

Definition bind {A B} (m : M A) (k : A -> M B) : M B :=
  fun this =>
    match m this with
    | Returns (a, this') => k a this'
    | Throws e => Throws e
    end.

Definition throw {A} (e : js_error) : M A := fun _ => Throws e.

Definition get_items : M (list value) := fun this => Returns (items this, this).

Definition set_items (its : list value) : M unit :=
  fun this => Returns (tt, mkStack its (rules this)).

Definition get_rules : M (list CounterweightRule) :=
  fun this => Returns (rules this, this).

Declare Scope js_scope.
Delimit Scope js_scope with js.
Notation "x <- m ;; k" := (bind m (fun x => k))
  (at level 100, m at next level, right associativity) : js_scope.
Notation "m ;;; k" := (bind m (fun _ => k))
  (at level 100, right associativity) : js_scope.
Open Scope js_scope.

(** ** Array primitives used by the class *)

(** [a[i]]: reading past the end of an array yields [undefined]. *)
Definition array_get (a : list value) (i : nat) : value :=
  nth i a VUndefined.

(** [a.pop()]: removes and returns the last element; on an empty array it
    returns [undefined] and leaves the array empty. *)
Definition array_pop : M value :=
  its <- get_items ;;
  match its with
  | [] => ret VUndefined
  | _ :: _ => set_items (List.removelast its) ;;; ret (List.last its VUndefined)
  end.

(** [!rule] where [rule] is the result of [Array.prototype.find]: an object
    (truthy) or [undefined]. *)
Definition not_found (rule : option CounterweightRule) : bool :=
  match rule with
  | Some _ => false
  | None => true
  end.

(** [rule.counterweights]: reading a property of [undefined] throws. *)
Definition get_counterweights (rule : option CounterweightRule) : M (list value) :=
  match rule with
  | Some r => ret (counterweights r)
  | None => throw TypeError
  end.

(** ** The methods of class CounterweightStack *)

Section Engine.

(** [deepEqual] of package objects-deep-compare: its code is not part of the
    repository, so the engine is generic in it.  It is a total comparator;
    nothing else is assumed of it unless a lemma says so. *)
Variable deepEqual : value -> value -> bool.

(** private isValidCounterweight(main, potentialCounterweight) *)
Definition isValidCounterweight (main potentialCounterweight : value) : M bool :=
  rs <- get_rules ;;
  let rule := List.find (fun r => deepEqual (mainElement r) main) rs in
  if not_found rule then ret false
  else
    cws <- get_counterweights rule ;;
    ret (existsb (fun cw => deepEqual cw potentialCounterweight) cws).

(** push(item) *)
Definition push (item : value) : M unit :=
  its <- get_items ;;
  set_items (its ++ [item]).

(** isEmpty() *)
Definition isEmpty : M bool :=
  its <- get_items ;;
  ret (Nat.eqb (length its) 0).

(** size() *)
Definition size : M nat :=
  its <- get_items ;;
  ret (length its).

(** peek() *)
Definition peek : M value :=
  empty <- isEmpty ;;
  if empty then ret VUndefined
  else
    its <- get_items ;;
    ret (array_get its (length its - 1)).

(** pop(counterweightAttempt) *)
Definition pop (counterweightAttempt : value) : M value :=
  empty <- isEmpty ;;
  if empty then ret VUndefined
  else
    topElement <- peek ;;
    if is_undefined topElement then ret VUndefined
    else
      valid <- isValidCounterweight topElement counterweightAttempt ;;
      if valid then array_pop
      else ret VUndefined.

(** clear() *)
Definition clear : M unit :=
  set_items [].

(** compareTop(item) *)
Definition compareTop (item : value) : M bool :=
  empty <- isEmpty ;;
  if empty then ret false
  else
    top <- peek ;;
    ret (deepEqual top item).

End Engine.

(** ** Clients of the class *)

(** A run of pushes, one call of [push] per element, in order. *)
Fixpoint push_all (xs : list value) : M unit :=
  match xs with
  | [] => ret tt
  | x :: xs' => push x ;;; push_all xs'
  end.

(** The public methods, as a caller invokes them.  A method declared [void]
    completes with [undefined]. *)
Inductive method : Type :=
| Push (item : value)
| Pop (counterweightAttempt : value)
| Peek
| IsEmpty
| Size
| Clear
| CompareTop (item : value).

Definition invoke (deepEqual : value -> value -> bool) (c : method) : M value :=
  match c with
  | Push item => push item ;;; ret VUndefined
  | Pop x => pop deepEqual x
  | Peek => peek
  | IsEmpty => b <- isEmpty ;; ret (VBool b)
  | Size => n <- size ;; ret (VNum (Z.of_nat n))
  | Clear => clear ;;; ret VUndefined
  | CompareTop item => b <- compareTop deepEqual item ;; ret (VBool b)
  end.

(** What a caller can see of a completed call: the returned value and the
    stack sequence it leaves behind. *)
Definition observe {A} (o : outcome (A * CounterweightStack)) : outcome (A * list value) :=
  match o with
  | Returns (a, this) => Returns (a, items this)
  | Throws e => Throws e
  end.

(** A run of calls on one instance, in order, collecting what each call
    returns. *)
Fixpoint invoke_all (deepEqual : value -> value -> bool) (cs : list method)
  : M (list value) :=
  match cs with
  | [] => ret []
  | c :: cs' =>
      v <- invoke deepEqual c ;;
      vs <- invoke_all deepEqual cs' ;;
      ret (v :: vs)
  end.

(** A run of pops, one call of [pop] per attempt, in order. *)
Fixpoint pop_all (deepEqual : value -> value -> bool) (xs : list value)
  : M (list value) :=
  match xs with
  | [] => ret []
  | x :: xs' =>
      v <- pop deepEqual x ;;
      vs <- pop_all deepEqual xs' ;;
      ret (v :: vs)
  end.

(** Bookkeeping over a run and its results: the calls of [push], and the
    calls of [pop] that returned an element. *)
Fixpoint pushed (cs : list method) : nat :=
  match cs with
  | [] => 0
  | Push _ :: cs' => S (pushed cs')
  | _ :: cs' => pushed cs'
  end.

Fixpoint popped (cs : list method) (vs : list value) : nat :=
  match cs, vs with
  | Pop _ :: cs', v :: vs' => (if is_undefined v then 0 else 1) + popped cs' vs'
  | _ :: cs', _ :: vs' => popped cs' vs'
  | _, _ => 0
  end.

Definition is_clear (c : method) : bool :=
  match c with
  | Clear => true
  | _ => false
  end.

(** ** A comparator to run the class with

    Modelled from the spec: the comparator [deepEqual] of package
    objects-deep-compare, whose code is not in the repository.  The
    specification describes it as value-based equality that recursively
    compares structure and content rather than reference identity.  Arrays
    are compared element by element and objects field by field, in the order
    the fields are listed. *)
Fixpoint deepEqual_structural (a b : value) {struct a} : bool :=
  match a, b with
  | VUndefined, VUndefined => true
  | VNull, VNull => true
  | VBool x, VBool y => Bool.eqb x y
  | VNum x, VNum y => Z.eqb x y
  | VStr x, VStr y => String.eqb x y
  | VFun x, VFun y => Nat.eqb x y
  | VArr xs, VArr ys =>
      (fix elems (xs ys : list value) {struct xs} : bool :=
         match xs, ys with
         | [], [] => true
         | x :: xs', y :: ys' => deepEqual_structural x y && elems xs' ys'
         | _, _ => false
         end) xs ys
  | VObj fs, VObj gs =>
      (fix fields (fs gs : list (string * value)) {struct fs} : bool :=
         match fs, gs with
         | [], [] => true
         | (k, x) :: fs', (k', y) :: gs' =>
             String.eqb k k' && deepEqual_structural x y && fields fs' gs'
         | _, _ => false
         end) fs gs
  | _, _ => false
  end.

(** ** The class in memory

    The engine above computes with element values.  At run time the
    elements, the counterweights arrays, the rule objects and the rule
    arrays are objects in memory, held by reference and shared between the
    caller and the instance: [push] stores the reference it is given,
    [[...rules]] copies references to the caller's rule objects, and only
    [structuredClone] makes objects of the instance's own.  Module [Heap] is
    the class over such a memory.

    Memory is typed as TypeScript types it: a slot of a rule array holds a
    reference to a rule object or nothing (a hole of a sparse array, which
    reads as [undefined]); a rule object holds its [mainElement] and a
    reference to its [counterweights] array; an element is an immutable
    value or a reference to an element object, a plain object whose fields
    hold value trees.  A write anywhere inside an element object is a write
    to its cell.  A read that finds memory of another shape is outside the model
    and yields [None].

    The comparator sees the contents of the two elements it is given, not
    their addresses: [deepEqual] is applied to what the references hold at
    the time of the call. *)

(** Values the structured clone algorithm can copy: a function anywhere in
    the value makes [structuredClone] throw a DataCloneError. *)
Fixpoint cloneable (v : value) : bool :=
  match v with
  | VFun _ => false
  | VArr xs => forallb cloneable xs
  | VObj fs => forallb (fun '(_, x) => cloneable x) fs
  | _ => true
  end.

Definition cloneable_rule (r : CounterweightRule) : bool :=
  cloneable (mainElement r) && forallb cloneable (counterweights r).

Module Heap.

Abbreviation loc := positive.

(** An element as the program holds it. *)
Inductive val : Type :=
| Imm (v : value)
| Ref (l : loc).

Inductive obj : Type :=
| OElem (fields : list (string * value))
| OValues (elems : list val)
| ORule (main : val) (cws : loc)
| ORules (slots : list (option loc)).

Abbreviation heap := (gmap loc obj).

(** The fields of an instance: [items] is private and never aliased, its
    entries are the references that were pushed; [rules] refers to the rule
    array. *)
Record instance : Type := mkInstance {
  inst_items : list val;
  inst_rules : loc
}.

Definition undefined : val := Imm VUndefined.

(** [v === undefined]: a reference is never [undefined]. *)
Definition is_undefined (v : val) : bool :=
  match v with
  | Imm x => is_undefined x
  | Ref _ => false
  end.

(** The contents of an element at this time. *)
Definition resolve (h : heap) (v : val) : option value :=
  match v with
  | Imm x => Some x
  | Ref l =>
      match h !! l with
      | Some (OElem fs) => Some (VObj fs)
      | _ => None
      end
  end.

(** *** Reading memory

    [R A]: a computation that reads memory and returns, throws, or finds
    memory outside the model. *)
Definition R (A : Type) : Type := heap -> option (outcome A).

Definition rret {A} (a : A) : R A := fun _ => Some (Returns a).

Definition rbind {A B} (m : R A) (k : A -> R B) : R B :=
  fun h =>
    match m h with
    | Some (Returns a) => k a h
    | Some (Throws e) => Some (Throws e)
    | None => None
    end.

Definition rthrow {A} (e : js_error) : R A := fun _ => Some (Throws e).

Declare Scope read_scope.
Delimit Scope read_scope with read.
Notation "x <- m ;; k" := (rbind m (fun x => k))
  (at level 100, m at next level, right associativity) : read_scope.

(** [this.rules], dereferenced: the slots of the rule array. *)
Definition get_slots (rules : loc) : R (list (option loc)) :=
  fun h =>
    match h !! rules with
    | Some (ORules slots) => Some (Returns slots)
    | _ => None
    end.

(** [r.mainElement] for an entry [r] of the rule array: reading a property
    of [undefined] throws. *)
Definition get_mainElement (r : option loc) : R val :=
  fun h =>
    match r with
    | None => Some (Throws TypeError)
    | Some l =>
        match h !! l with
        | Some (ORule m _) => Some (Returns m)
        | _ => None
        end
    end.

(** [rule.counterweights], dereferenced: the elements of the array. *)
Definition get_counterweights (rule : option loc) : R (list val) :=
  fun h =>
    match rule with
    | None => Some (Throws TypeError)
    | Some l =>
        match h !! l with
        | Some (ORule _ c) =>
            match h !! c with
            | Some (OValues cws) => Some (Returns cws)
            | _ => None
            end
        | _ => None
        end
    end.

(** [!rule] for the result of [find]. *)
Definition not_found (rule : option loc) : bool :=
  match rule with
  | Some _ => false
  | None => true
  end.

(** [a.find(f)]: calls [f] on the entries in index order, holes included,
    and returns the first entry [f] accepts. *)
Fixpoint find_js (f : option loc -> R bool) (slots : list (option loc))
  : R (option loc) :=
  match slots with
  | [] => rret None
  | r :: rest =>
      (b <- f r ;;
       if b then rret r else find_js f rest)%read
  end.

(** [a.some(f)]: calls [f] on the elements in index order until one is
    accepted. *)
Fixpoint some_js (f : val -> R bool) (elems : list val) : R bool :=
  match elems with
  | [] => rret false
  | e :: rest =>
      (b <- f e ;;
       if b then rret true else some_js f rest)%read
  end.

(** *** Methods

    [H A]: a method body, which reads memory and reads and writes the fields
    of [this]. *)
Definition H (A : Type) : Type :=
  heap -> instance -> option (outcome (A * instance)).

Definition ret {A} (a : A) : H A := fun _ o => Some (Returns (a, o)).

Definition bind {A B} (m : H A) (k : A -> H B) : H B :=
  fun h o =>
    match m h o with
    | Some (Returns (a, o')) => k a h o'
    | Some (Throws e) => Some (Throws e)
    | None => None
    end.

Definition read {A} (r : R A) : H A :=
  fun h o =>
    match r h with
    | Some (Returns a) => Some (Returns (a, o))
    | Some (Throws e) => Some (Throws e)
    | None => None
    end.

Definition get_items : H (list val) := fun _ o => Some (Returns (inst_items o, o)).

Definition set_items (its : list val) : H unit :=
  fun _ o => Some (Returns (tt, mkInstance its (inst_rules o))).

Definition get_rules : H loc := fun _ o => Some (Returns (inst_rules o, o)).

Declare Scope heap_scope.
Delimit Scope heap_scope with heap.
Notation "x <- m ;; k" := (bind m (fun x => k))
  (at level 100, m at next level, right associativity) : heap_scope.
Notation "m ;;; k" := (bind m (fun _ => k))
  (at level 100, right associativity) : heap_scope.

(** [a[i]] and [a.pop()] on the items array. *)
Definition array_get (a : list val) (i : nat) : val :=
  nth i a undefined.

Definition array_pop : H val :=
  (its <- get_items ;;
   match its with
   | [] => ret undefined
   | _ :: _ => set_items (List.removelast its) ;;; ret (List.last its undefined)
   end)%heap.

Section Class.

Variable deepEqual : value -> value -> bool.

(** [deepEqual(a, b)] on two elements in memory. *)
Definition call_deepEqual (a b : val) : R bool :=
  fun h =>
    match resolve h a, resolve h b with
    | Some x, Some y => Some (Returns (deepEqual x y))
    | _, _ => None
    end.

(** private isValidCounterweight(main, potentialCounterweight) *)
Definition isValidCounterweight (main potentialCounterweight : val) : H bool :=
  (rules <- get_rules ;;
   read
     (slots <- get_slots rules ;;
      rule <- find_js (fun r => m <- get_mainElement r ;; call_deepEqual m main) slots ;;
      if not_found rule then rret false
      else
        cws <- get_counterweights rule ;;
        some_js (fun cw => call_deepEqual cw potentialCounterweight) cws)%read)%heap.

(** push(item) *)
Definition push (item : val) : H unit :=
  (its <- get_items ;;
   set_items (its ++ [item]))%heap.

(** isEmpty() *)
Definition isEmpty : H bool :=
  (its <- get_items ;;
   ret (Nat.eqb (length its) 0))%heap.

(** size() *)
Definition size : H nat :=
  (its <- get_items ;;
   ret (length its))%heap.

(** peek() *)
Definition peek : H val :=
  (empty <- isEmpty ;;
   if empty then ret undefined
   else
     its <- get_items ;;
     ret (array_get its (length its - 1)))%heap.

(** pop(counterweightAttempt) *)
Definition pop (counterweightAttempt : val) : H val :=
  (empty <- isEmpty ;;
   if empty then ret undefined
   else
     topElement <- peek ;;
     if is_undefined topElement then ret undefined
     else
       valid <- isValidCounterweight topElement counterweightAttempt ;;
       if valid then array_pop
       else ret undefined)%heap.

(** clear() *)
Definition clear : H unit :=
  set_items [].

(** compareTop(item) *)
Definition compareTop (item : val) : H bool :=
  (empty <- isEmpty ;;
   if empty then ret false
   else
     top <- peek ;;
     read (call_deepEqual top item))%heap.

End Class.

(** *** Construction *)

Definition alloc (h : heap) (o : obj) : heap * loc :=
  (<[fresh (dom h) := o]> h, fresh (dom h)).

(** The structured clone of an element: an immutable value is itself, an
    element object is copied to a new object; a function in either makes
    the algorithm throw. *)
Definition clone_val (h : heap) (v : val) : option (outcome (heap * val)) :=
  match v with
  | Imm x =>
      if cloneable x then Some (Returns (h, Imm x))
      else Some (Throws DataCloneError)
  | Ref l =>
      match h !! l with
      | Some (OElem fs) =>
          if cloneable (VObj fs) then
            let '(h', l') := alloc h (OElem fs) in
            Some (Returns (h', Ref l'))
          else Some (Throws DataCloneError)
      | _ => None
      end
  end.

Fixpoint clone_vals (h : heap) (vs : list val) : option (outcome (heap * list val)) :=
  match vs with
  | [] => Some (Returns (h, []))
  | v :: vs' =>
      match clone_val h v with
      | Some (Returns (h1, v')) =>
          match clone_vals h1 vs' with
          | Some (Returns (h2, vs'')) => Some (Returns (h2, v' :: vs''))
          | other => other
          end
      | Some (Throws e) => Some (Throws e)
      | None => None
      end
  end.

(** The clone of a rule object: its [mainElement], then its
    [counterweights] array. *)
Definition clone_rule (h : heap) (l : loc) : option (outcome (heap * loc)) :=
  match h !! l with
  | Some (ORule m c) =>
      match h !! c with
      | Some (OValues cws) =>
          match clone_val h m with
          | Some (Returns (h1, m')) =>
              match clone_vals h1 cws with
              | Some (Returns (h2, cws')) =>
                  let '(h3, c') := alloc h2 (OValues cws') in
                  Some (Returns (alloc h3 (ORule m' c')))
              | Some (Throws e) => Some (Throws e)
              | None => None
              end
          | Some (Throws e) => Some (Throws e)
          | None => None
          end
      | _ => None
      end
  | _ => None
  end.

(** The clone of the entries of a rule array; a hole stays a hole. *)
Fixpoint clone_slots (h : heap) (slots : list (option loc))
  : option (outcome (heap * list (option loc))) :=
  match slots with
  | [] => Some (Returns (h, []))
  | None :: rest =>
      match clone_slots h rest with
      | Some (Returns (h1, rest')) => Some (Returns (h1, None :: rest'))
      | other => other
      end
  | Some l :: rest =>
      match clone_rule h l with
      | Some (Returns (h1, l')) =>
          match clone_slots h1 rest with
          | Some (Returns (h2, rest')) => Some (Returns (h2, Some l' :: rest'))
          | other => other
          end
      | Some (Throws e) => Some (Throws e)
      | None => None
      end
  end.

(** [structuredClone(rules)]: new objects all the way down, or a
    DataCloneError.  An object reached twice is copied twice; the class
    never writes to its rules and compares contents, so it cannot tell. *)
Definition structuredClone (h : heap) (a : loc) : option (outcome (heap * loc)) :=
  match h !! a with
  | Some (ORules slots) =>
      match clone_slots h slots with
      | Some (Returns (h1, slots')) => Some (Returns (alloc h1 (ORules slots')))
      | Some (Throws e) => Some (Throws e)
      | None => None
      end
  | _ => None
  end.

(** [[...rules]]: a new array holding the same references. *)
Definition spread (h : heap) (a : loc) : option (outcome (heap * loc)) :=
  match h !! a with
  | Some (ORules slots) => Some (Returns (alloc h (ORules slots)))
  | _ => None
  end.

Definition warning : string :=
  "structuredClone failed, using shallow copy for rules. Ensure rules are not modified externally.".

(** constructor(rules): returns the memory after allocation, the new
    instance and what was written to the console. *)
Definition constructor (h : heap) (rules : loc)
  : option (outcome (heap * instance * list string)) :=
  match structuredClone h rules with
  | Some (Returns (h', a')) => Some (Returns (h', mkInstance [] a', []))
  | Some (Throws _) =>
      match spread h rules with
      | Some (Returns (h', a')) => Some (Returns (h', mkInstance [] a', [warning]))
      | Some (Throws e) => Some (Throws e)
      | None => None
      end
  | None => None
  end.

(** *** The caller

    What the caller can do to memory after construction: write to any
    object it can reach, or allocate.  It holds no reference to the objects
    in [owned], those the constructor allocated; it does hold the elements
    it pushed. *)
Inductive caller_step (owned : gset loc) : heap -> heap -> Prop :=
| caller_write (h : heap) (l : loc) (o : obj) :
    l ∉ owned -> caller_step owned h (<[l := o]> h).

Definition caller_steps (owned : gset loc) : heap -> heap -> Prop :=
  rtc (caller_step owned).

(** The public methods, as a caller invokes them on an instance in memory.
    A method declared [void] completes with [undefined]. *)
Inductive method : Type :=
| Push (item : val)
| Pop (counterweightAttempt : val)
| Peek
| IsEmpty
| Size
| Clear
| CompareTop (item : val).

Definition invoke (deepEqual : value -> value -> bool) (c : method) : H val :=
  (match c with
   | Push item => push item ;;; ret undefined
   | Pop x => pop deepEqual x
   | Peek => peek
   | IsEmpty => b <- isEmpty ;; ret (Imm (VBool b))
   | Size => n <- size ;; ret (Imm (VNum (Z.of_nat n)))
   | Clear => clear ;;; ret undefined
   | CompareTop item => b <- compareTop deepEqual item ;; ret (Imm (VBool b))
   end)%heap.

(** A session: the caller's writes to memory interleaved with its calls on
    the instance.  A call runs against memory as the writes before it left
    it; the session stops at the first call that throws. *)
Inductive event : Type :=
| Write (l : loc) (o : obj)
| Call (c : method).

Fixpoint session (deepEqual : value -> value -> bool) (es : list event)
  (h : heap) (o : instance) : option (outcome (list val * instance)) :=
  match es with
  | [] => Some (Returns ([], o))
  | Write l ob :: es' => session deepEqual es' (<[l := ob]> h) o
  | Call c :: es' =>
      match invoke deepEqual c h o with
      | Some (Returns (v, o')) =>
          match session deepEqual es' h o' with
          | Some (Returns (vs, o'')) => Some (Returns (v :: vs, o''))
          | other => other
          end
      | Some (Throws e) => Some (Throws e)
      | None => None
      end
  end.

(** The calls of a session, without its writes. *)
Fixpoint calls (es : list event) : list event :=
  match es with
  | [] => []
  | Write _ _ :: es' => calls es'
  | Call c :: es' => Call c :: calls es'
  end.

(** Whether an element the caller passes is a value or one of the element
    objects in [elems]. *)
Definition element_in (elems : gset loc) (v : val) : Prop :=
  match v with
  | Imm _ => True
  | Ref l => l ∈ elems
  end.

Definition argument_in (elems : gset loc) (c : method) : Prop :=
  match c with
  | Push item => element_in elems item
  | Pop x => element_in elems x
  | CompareTop item => element_in elems item
  | _ => True
  end.

(** A session whose writes stay off the cells in [kept] and whose calls pass
    only values and the element objects in [elems]. *)
Fixpoint session_within (kept elems : gset loc) (es : list event) : Prop :=
  match es with
  | [] => True
  | Write l _ :: es' => (l ∉ kept) /\ session_within kept elems es'
  | Call c :: es' => argument_in elems c /\ session_within kept elems es'
  end.

(** *** The rule table an array holds at this time, element by element *)

Definition rule_view (h : heap) (l : loc) : option CounterweightRule :=
  match h !! l with
  | Some (ORule m c) =>
      match h !! c with
      | Some (OValues cws) =>
          match resolve h m, mapM (resolve h) cws with
          | Some m', Some cws' => Some (mkRule m' cws')
          | _, _ => None
          end
      | _ => None
      end
  | _ => None
  end.

Definition slot_view (h : heap) (s : option loc) : option (option CounterweightRule) :=
  match s with
  | None => Some None
  | Some l =>
      match rule_view h l with
      | Some r => Some (Some r)
      | None => None
      end
  end.

Definition table_view (h : heap) (a : loc) : option (list (option CounterweightRule)) :=
  match h !! a with
  | Some (ORules slots) => mapM (slot_view h) slots
  | _ => None
  end.

(** Whether every rule of a table can be cloned; a hole can. *)
Definition cloneable_table (tbl : list (option CounterweightRule)) : bool :=
  forallb (fun s => match s with
                    | Some r => cloneable_rule r
                    | None => true
                    end) tbl.

(** [h2] holds, in the cells allocated between [h0] and [h1], what [h1]
    holds. *)
Definition keeps_new (h0 h1 h2 : heap) : Prop :=
  forall l, l ∉ dom h0 -> l ∈ dom h1 -> h2 !! l = h1 !! l.

(** The instance as the engine sees it, when its rule array has no hole. *)
Definition engine_view (h : heap) (o : instance) : option CounterweightStack :=
  match mapM (resolve h) (inst_items o), table_view h (inst_rules o) with
  | Some its, Some tbl =>
      match mapM id tbl with
      | Some rs => Some (mkStack its rs)
      | None => None
      end
  | _, _ => None
  end.

End Heap.


(** ** The tokens and rules of the usage example ([src/src/example.ts]) *)

Module Example.

Definition token (ty va : string) : value :=
  VObj [("type", VStr ty); ("value", VStr va)].

Definition beginToken : value := token "KEYWORD" "begin".
Definition endToken : value := token "KEYWORD" "end".
Definition endDotToken : value := token "KEYWORD" "end.".
Definition ifToken : value := token "KEYWORD" "if".
Definition thenToken : value := token "KEYWORD" "then".
Definition someOtherToken : value := token "IDENTIFIER" "myVar".

Definition myRules : list CounterweightRule :=
  [ mkRule beginToken [endToken; endDotToken];
    mkRule ifToken [thenToken] ].

(** The caller's memory before construction, as [src/src/example.ts] builds
    it: the array [myRules] at address 1, its rule objects at 2 and 3, their
    counterweights arrays at 4 and 5, and the six token objects at 10 to
    15.  The rules refer to the token objects; so will the stack, once they
    are pushed. *)
Definition myRulesRef : Heap.loc := 1%positive.

Definition beginRef : Heap.val := Heap.Ref 10%positive.
Definition endRef : Heap.val := Heap.Ref 11%positive.
Definition endDotRef : Heap.val := Heap.Ref 12%positive.
Definition ifRef : Heap.val := Heap.Ref 13%positive.
Definition thenRef : Heap.val := Heap.Ref 14%positive.
Definition someOtherRef : Heap.val := Heap.Ref 15%positive.

Definition tokenCell (ty va : string) : Heap.obj :=
  Heap.OElem [("type", VStr ty); ("value", VStr va)].

Definition tokenCells : Heap.heap :=
  <[10%positive := tokenCell "KEYWORD" "begin"]>
    (<[11%positive := tokenCell "KEYWORD" "end"]>
       (<[12%positive := tokenCell "KEYWORD" "end."]>
          (<[13%positive := tokenCell "KEYWORD" "if"]>
             (<[14%positive := tokenCell "KEYWORD" "then"]>
                (<[15%positive := tokenCell "IDENTIFIER" "myVar"]> ∅))))).

Definition callerHeap : Heap.heap :=
  <[1%positive := Heap.ORules [Some 2%positive; Some 3%positive]]>
    (<[2%positive := Heap.ORule beginRef 4%positive]>
       (<[4%positive := Heap.OValues [endRef; endDotRef]]>
          (<[3%positive := Heap.ORule ifRef 5%positive]>
             (<[5%positive := Heap.OValues [thenRef]]> tokenCells)))).

(** The same rules in a sparse array: index 0 was never assigned. *)
Definition sparseHeap : Heap.heap :=
  <[1%positive := Heap.ORules [None; Some 2%positive; Some 3%positive]]> callerHeap.

(** A rule table whose elements carry a function, which [structuredClone]
    cannot copy: a handler that is closed by a second one. *)
Definition onOpen : value := VObj [("name", VStr "open"); ("run", VFun 0)].
Definition onClose : value := VObj [("name", VStr "close"); ("run", VFun 1)].

Definition handlerHeap : Heap.heap :=
  <[1%positive := Heap.ORules [Some 2%positive]]>
    (<[2%positive := Heap.ORule (Heap.Ref 10%positive) 4%positive]>
       (<[4%positive := Heap.OValues [Heap.Ref 11%positive]]>
          (<[10%positive := Heap.OElem [("name", VStr "open"); ("run", VFun 0)]]>
             (<[11%positive := Heap.OElem [("name", VStr "close"); ("run", VFun 1)]]>
                ∅)))).



End Example.

(** ** Induction on values, through the arrays and objects they nest *)

Section ValueInduction.

Variable P : value -> Prop.
Hypothesis P_undefined : P VUndefined.
Hypothesis P_null : P VNull.
Hypothesis P_bool : forall b, P (VBool b).
Hypothesis P_num : forall n, P (VNum n).
Hypothesis P_str : forall s, P (VStr s).
Hypothesis P_fun : forall id, P (VFun id).
Hypothesis P_arr : forall xs, Forall P xs -> P (VArr xs).
Hypothesis P_obj : forall fs, Forall (fun kv => P (snd kv)) fs -> P (VObj fs).

Fixpoint value_ind_nested (v : value) : P v :=
  match v with
  | VUndefined => P_undefined
  | VNull => P_null
  | VBool b => P_bool b
  | VNum n => P_num n
  | VStr s => P_str s
  | VFun id => P_fun id
  | VArr xs =>
      P_arr xs
        ((fix all (xs : list value) : Forall P xs :=
            match xs with
            | [] => @List.Forall_nil _ P
            | x :: xs' => @List.Forall_cons _ P x xs' (value_ind_nested x) (all xs')
            end) xs)
  | VObj fs =>
      P_obj fs
        ((fix all (fs : list (string * value)) : Forall (fun kv => P (snd kv)) fs :=
            match fs with
            | [] => @List.Forall_nil _ _
            | (k, x) :: fs' =>
                @List.Forall_cons _ (fun kv => P (snd kv)) (k, x) fs'
                  (value_ind_nested x) (all fs')
            end) fs)
  end.

End ValueInduction.

(** * Properties of the engine *)

(** ** Equations of the methods *)

Section EngineEquations.

Variable deepEqual : value -> value -> bool.

Lemma array_get_last (its : list value) (t : value) :
  array_get (its ++ [t]) (length (its ++ [t]) - 1) = t.
Proof.
  unfold array_get. rewrite length_app. simpl.
  replace (length its + 1 - 1) with (length its) by lia.
  induction its as [|i its IH]; simpl; auto.
Qed.

Lemma length_snoc_eqb (its : list value) (t : value) :
  Nat.eqb (length (its ++ [t])) 0 = false.
Proof.
  rewrite length_app. simpl. apply Nat.eqb_neq. lia.
Qed.

Lemma isEmpty_eq (this : CounterweightStack) :
  isEmpty this = Returns (Nat.eqb (length (items this)) 0, this).
Proof. reflexivity. Qed.

Lemma size_eq (this : CounterweightStack) :
  size this = Returns (length (items this), this).
Proof. reflexivity. Qed.

Lemma peek_nil (rs : list CounterweightRule) :
  peek (mkStack [] rs) = Returns (VUndefined, mkStack [] rs).
Proof. reflexivity. Qed.

Lemma peek_snoc (its : list value) (t : value) (rs : list CounterweightRule) :
  peek (mkStack (its ++ [t]) rs) = Returns (t, mkStack (its ++ [t]) rs).
Proof.
  unfold peek, bind. rewrite isEmpty_eq. cbn [items].
  rewrite length_snoc_eqb. unfold get_items, ret. cbn [items].
  rewrite array_get_last. reflexivity.
Qed.

Lemma push_eq (item : value) (this : CounterweightStack) :
  push item this = Returns (tt, mkStack (items this ++ [item]) (rules this)).
Proof. reflexivity. Qed.


Lemma array_pop_snoc (its : list value) (t : value) (rs : list CounterweightRule) :
  array_pop (mkStack (its ++ [t]) rs) = Returns (t, mkStack its rs).
Proof.
  unfold array_pop, bind, get_items, set_items, ret. simpl.
  destruct (its ++ [t]) as [|i l] eqn:E.
  - destruct its; discriminate.
  - rewrite <- E. rewrite List.removelast_last, List.last_last. reflexivity.
Qed.

(** [isValidCounterweight] never throws: the property read is guarded. *)
Lemma isValidCounterweight_eq (main x : value) (this : CounterweightStack) :
  isValidCounterweight deepEqual main x this =
  Returns (match List.find (fun r => deepEqual (mainElement r) main) (rules this) with
           | Some r => existsb (fun cw => deepEqual cw x) (counterweights r)
           | None => false
           end, this).
Proof.
  unfold isValidCounterweight, bind, get_rules, ret. simpl.
  destruct (List.find _ (rules this)); reflexivity.
Qed.

Lemma pop_nil (x : value) (rs : list CounterweightRule) :
  pop deepEqual x (mkStack [] rs) = Returns (VUndefined, mkStack [] rs).
Proof. reflexivity. Qed.

(** The four ways a pop on a non-empty stack ends. *)
Lemma pop_snoc (x : value) (its : list value) (t : value) (rs : list CounterweightRule) :
  pop deepEqual x (mkStack (its ++ [t]) rs) =
  Returns
    (if is_undefined t then (VUndefined, mkStack (its ++ [t]) rs)
     else
       match List.find (fun r => deepEqual (mainElement r) t) rs with
       | Some r =>
           if existsb (fun cw => deepEqual cw x) (counterweights r)
           then (t, mkStack its rs)
           else (VUndefined, mkStack (its ++ [t]) rs)
       | None => (VUndefined, mkStack (its ++ [t]) rs)
       end).
Proof.
  unfold pop. unfold bind at 1. rewrite isEmpty_eq. cbn [items].
  rewrite length_snoc_eqb.
  unfold bind at 1. rewrite peek_snoc.
  destruct (is_undefined t); [reflexivity|].
  unfold bind. rewrite isValidCounterweight_eq. cbn [rules].
  destruct (List.find _ rs) as [r|]; [|reflexivity].
  destruct (existsb _ (counterweights r)); [|reflexivity].
  apply array_pop_snoc.
Qed.

Lemma compareTop_nil (item : value) (rs : list CounterweightRule) :
  compareTop deepEqual item (mkStack [] rs) = Returns (false, mkStack [] rs).
Proof. reflexivity. Qed.

Lemma compareTop_snoc (item : value) (its : list value) (t : value)
  (rs : list CounterweightRule) :
  compareTop deepEqual item (mkStack (its ++ [t]) rs) =
  Returns (deepEqual t item, mkStack (its ++ [t]) rs).
Proof.
  unfold compareTop. unfold bind at 1. rewrite isEmpty_eq. cbn [items].
  rewrite length_snoc_eqb. unfold bind. rewrite peek_snoc. reflexivity.
Qed.

(** The first rule of a table that matches, found by the linear scan. *)
Lemma find_first {A} (f : A -> bool) (pre : list A) (r : A) (post : list A) :
  Forall (fun r' => f r' = false) pre ->
  f r = true ->
  List.find f (pre ++ r :: post) = Some r.
Proof.
  induction 1 as [|r' pre Hr' _ IH]; simpl; intros Hr.
  - rewrite Hr. reflexivity.
  - rewrite Hr'. auto.
Qed.

Lemma find_first_inv {A} (f : A -> bool) (rs : list A) (r : A) :
  List.find f rs = Some r ->
  exists pre post,
    rs = pre ++ r :: post /\ Forall (fun r' => f r' = false) pre /\ f r = true.
Proof.
  induction rs as [|r' rs IH]; simpl; [discriminate|].
  destruct (f r') eqn:E.
  - intros [= <-]. exists [], rs. auto.
  - intros H. destruct (IH H) as (pre & post & -> & Hpre & Hr).
    exists (r' :: pre), post. auto.
Qed.

Lemma find_no_match {A} (f : A -> bool) (rs : list A) :
  (forall r, In r rs -> f r = false) ->
  List.find f rs = None.
Proof.
  induction rs as [|r rs IH]; simpl; intros H; [reflexivity|].
  rewrite (H r) by auto. apply IH. auto.
Qed.


End EngineEquations.

(** ** The structural comparator decides equality of value trees *)


Lemma deepEqual_structural_spec (a b : value) :
  deepEqual_structural a b = true <-> a = b.
Proof.
  revert b. induction a as [| |x|x|x|x|xs IH|fs IH] using value_ind_nested;
    intros [| |y|y|y|y|ys|gs]; simpl; try (split; [discriminate|congruence]);
    try (split; reflexivity).
  - rewrite Bool.eqb_true_iff. split; congruence.
  - rewrite Z.eqb_eq. split; congruence.
  - rewrite String.eqb_eq. split; congruence.
  - rewrite Nat.eqb_eq. split; congruence.
  - revert ys. induction IH as [|x xs Hx _ IHxs]; intros [|y ys];
      try (split; [discriminate|congruence]); [split; reflexivity|].
    rewrite andb_true_iff, Hx. specialize (IHxs ys).
    split.
    + intros [-> H]. apply IHxs in H. congruence.
    + intros [= -> ->]. split; [reflexivity|]. apply IHxs. reflexivity.
  - revert gs. induction IH as [|[k x] fs Hx _ IHfs]; intros [|[k' y] gs];
      try (split; [discriminate|congruence]); [split; reflexivity|].
    rewrite !andb_true_iff, String.eqb_eq. simpl in Hx. rewrite Hx.
    specialize (IHfs gs).
    split.
    + intros [[-> ->] H]. apply IHfs in H. congruence.
    + intros [= -> -> ->]. repeat split. apply IHfs. reflexivity.
Qed.

Lemma deepEqual_structural_refl (a : value) : deepEqual_structural a a = true.
Proof. apply deepEqual_structural_spec. reflexivity. Qed.

Lemma deepEqual_structural_sym (a b : value) :
  deepEqual_structural a b = true -> deepEqual_structural b a = true.
Proof. rewrite !deepEqual_structural_spec. congruence. Qed.

Lemma deepEqual_structural_trans (a b c : value) :
  deepEqual_structural a b = true ->
  deepEqual_structural b c = true ->
  deepEqual_structural a c = true.
Proof. rewrite !deepEqual_structural_spec. congruence. Qed.

(** ** Pop, push, clear and compareTop *)

Section EngineProperties.

Variable deepEqual : value -> value -> bool.

(** [pop] looks at the rule table only through the lookup of the top. *)
Lemma pop_same_lookup (x : value) (its : list value) (rs rs' : list CounterweightRule) :
  (forall t, List.find (fun r => deepEqual (mainElement r) t) rs =
             List.find (fun r => deepEqual (mainElement r) t) rs') ->
  observe (pop deepEqual x (mkStack its rs)) =
  observe (pop deepEqual x (mkStack its rs')).
Proof.
  intros Hfind. destruct its as [|t its _] using rev_ind.
  - reflexivity.
  - rewrite !pop_snoc, (Hfind t). simpl.
    destruct (is_undefined t); [reflexivity|].
    destruct (List.find _ rs') as [r|]; [|reflexivity].
    destruct (existsb _ (counterweights r)); reflexivity.
Qed.

(** The outcome of [pop] when the top is defined and its first matching rule
    is known. *)
Lemma pop_decided
  (its : list value) (t : value)
  (pre : list CounterweightRule) (r : CounterweightRule) (post : list CounterweightRule)
  (x : value) :
  is_undefined t = false ->
  Forall (fun r' => deepEqual (mainElement r') t = false) pre ->
  deepEqual (mainElement r) t = true ->
  pop deepEqual x (mkStack (its ++ [t]) (pre ++ r :: post)) =
  Returns (if existsb (fun cw => deepEqual cw x) (counterweights r)
           then (t, mkStack its (pre ++ r :: post))
           else (VUndefined, mkStack (its ++ [t]) (pre ++ r :: post))).
Proof.
  intros Hdef Hpre Hr.
  rewrite pop_snoc, Hdef.
  rewrite (find_first (fun r' => deepEqual (mainElement r') t) pre r post Hpre Hr).
  reflexivity.
Qed.

(** C4: on an empty stack [pop(x)] returns [undefined] for every [x] and
    changes nothing; [size()] is still 0 afterwards. *)
Theorem pop_empty (rs : list CounterweightRule) (x : value) :
  pop deepEqual x (mkStack [] rs) = Returns (VUndefined, mkStack [] rs) /\
  (pop deepEqual x ;;; size) (mkStack [] rs) = Returns (0, mkStack [] rs).
Proof. split; reflexivity. Qed.


(** C10: an [undefined] on top of the stack is never popped: [pop(x)] returns
    [undefined] and changes nothing, whatever the rule table holds and
    whatever [x] is. *)
Theorem pop_undefined_top
  (its : list value) (rs : list CounterweightRule) (x : value) :
  pop deepEqual x (mkStack (its ++ [VUndefined]) rs) =
    Returns (VUndefined, mkStack (its ++ [VUndefined]) rs).
Proof. rewrite pop_snoc. reflexivity. Qed.


(** C8: [compareTop(item)] is false on an empty stack; on a non-empty stack
    it is the comparator applied to the top and [item], the comparator the
    rule lookup applies to a rule's [mainElement]; the instance is never
    changed. *)
Theorem compareTop_spec :
  (forall rs item,
     compareTop deepEqual item (mkStack [] rs) = Returns (false, mkStack [] rs)) /\
  (forall its t rs item,
     compareTop deepEqual item (mkStack (its ++ [t]) rs) =
       Returns (deepEqual t item, mkStack (its ++ [t]) rs)) /\
  (forall its t rs item cws,
     compareTop deepEqual item (mkStack (its ++ [t]) rs) =
       Returns (true, mkStack (its ++ [t]) rs)
     <-> List.find (fun r => deepEqual (mainElement r) item) [mkRule t cws] =
           Some (mkRule t cws)).
Proof.
  split; [reflexivity|]. split; [intros; apply compareTop_snoc|].
  intros. rewrite compareTop_snoc. simpl.
  destruct (deepEqual t item); split; congruence.
Qed.

(** The state a run of pushes leaves. *)
Lemma push_all_eq (xs : list value) (this : CounterweightStack) :
  push_all xs this = Returns (tt, mkStack (items this ++ xs) (rules this)).
Proof.
  revert this. induction xs as [|x xs IH]; intros [its rs]; simpl.
  - unfold ret. rewrite app_nil_r. reflexivity.
  - unfold bind. rewrite push_eq, IH. simpl. rewrite <- app_assoc. reflexivity.
Qed.

(** C6: [push(item)] returns normally for every item and every instance and
    makes the size one larger; after any run of pushes the size has grown by
    the number of pushes (from a new, empty instance it is that number) and
    [peek()] returns the element pushed last. *)
Theorem push_always_succeeds :
  (forall item this,
     push item this = Returns (tt, mkStack (items this ++ [item]) (rules this)) /\
     (push item ;;; size) this =
       Returns (S (length (items this)), mkStack (items this ++ [item]) (rules this))) /\
  (forall xs this,
     (push_all xs ;;; size) this =
       Returns (length (items this) + length xs, mkStack (items this ++ xs) (rules this))) /\
  (forall xs rs,
     (push_all xs ;;; size) (mkStack [] rs) = Returns (length xs, mkStack xs rs)) /\
  (forall ys y this,
     (push_all (ys ++ [y]) ;;; peek) this =
       Returns (y, mkStack (items this ++ ys ++ [y]) (rules this))).
Proof.
  assert (Hsize : forall xs this,
             (push_all xs ;;; size) this =
             Returns (length (items this) + length xs,
                      mkStack (items this ++ xs) (rules this))).
  { intros. unfold bind. rewrite push_all_eq, size_eq. simpl.
    rewrite length_app. reflexivity. }
  split; [|split; [exact Hsize|split]].
  - intros item this. split; [reflexivity|].
    unfold bind. rewrite push_eq, size_eq. simpl. rewrite length_app. simpl.
    replace (length (items this) + 1) with (S (length (items this))) by lia.
    reflexivity.
  - intros xs rs. rewrite Hsize. reflexivity.
  - intros ys y this. unfold bind. rewrite push_all_eq.
    rewrite app_assoc. apply peek_snoc.
Qed.


End EngineProperties.

(** ** Rules with deep-equal main elements *)

Lemma find_skip_shadowed {A} (f : A -> bool) (pre : list A) (r1 : A) (mid : list A)
  (r2 : A) (post : list A) :
  (f r2 = true -> f r1 = true) ->
  List.find f (pre ++ r1 :: mid ++ r2 :: post) = List.find f (pre ++ r1 :: mid ++ post).
Proof.
  intros Himp. induction pre as [|p pre IH]; simpl.
  - destruct (f r1) eqn:E1; [reflexivity|].
    assert (E2 : f r2 = false).
    { destruct (f r2) eqn:E2; [|reflexivity]. specialize (Himp eq_refl). congruence. }
    induction mid as [|m mid IHm]; simpl.
    + rewrite E2. reflexivity.
    + destruct (f m); auto.
  - destruct (f p); auto.
Qed.

Section Shadowing.

Variable deepEqual : value -> value -> bool.

(** Deep equality is taken to be symmetric and transitive here: only then do
    "rules whose main elements are deep-equal" form a group that a top
    element matches as a whole. *)
Hypothesis deepEqual_sym :
  forall a b, deepEqual a b = true -> deepEqual b a = true.
Hypothesis deepEqual_trans :
  forall a b c, deepEqual a b = true -> deepEqual b c = true -> deepEqual a c = true.

(** C2: let [r1] be the first rule of the table with its [mainElement] and
    [r2] a later rule whose [mainElement] is deep-equal to it.  A pop whose
    top matches them is decided by the counterweights of [r1] alone, and no
    pop on any stack changes its outcome when [r2] is given another
    counterweights list or is deleted from the table. *)
Theorem later_duplicate_rule_shadowed
  (pre : list CounterweightRule) (r1 : CounterweightRule) (mid : list CounterweightRule)
  (r2 : CounterweightRule) (post : list CounterweightRule) :
  Forall (fun r => deepEqual (mainElement r) (mainElement r1) = false) pre ->
  deepEqual (mainElement r1) (mainElement r2) = true ->
  (forall its t x,
     is_undefined t = false ->
     deepEqual (mainElement r2) t = true ->
     pop deepEqual x (mkStack (its ++ [t]) (pre ++ r1 :: mid ++ r2 :: post)) =
     Returns (if existsb (fun cw => deepEqual cw x) (counterweights r1)
              then (t, mkStack its (pre ++ r1 :: mid ++ r2 :: post))
              else (VUndefined, mkStack (its ++ [t]) (pre ++ r1 :: mid ++ r2 :: post)))) /\
  (forall its x cws',
     observe (pop deepEqual x
                (mkStack its (pre ++ r1 :: mid ++ mkRule (mainElement r2) cws' :: post))) =
     observe (pop deepEqual x (mkStack its (pre ++ r1 :: mid ++ r2 :: post)))) /\
  (forall its x,
     observe (pop deepEqual x (mkStack its (pre ++ r1 :: mid ++ post))) =
     observe (pop deepEqual x (mkStack its (pre ++ r1 :: mid ++ r2 :: post)))).
Proof.
  intros Hfirst Hdup.
  assert (Hskip : forall t r2',
             mainElement r2' = mainElement r2 ->
             List.find (fun r => deepEqual (mainElement r) t)
               (pre ++ r1 :: mid ++ r2' :: post) =
             List.find (fun r => deepEqual (mainElement r) t)
               (pre ++ r1 :: mid ++ post)).
  { intros t r2' Hmain. apply find_skip_shadowed. rewrite Hmain.
    intros H2. apply (deepEqual_trans _ _ _ Hdup H2). }
  split; [|split].
  - intros its t x Hdef H2.
    assert (H1 : deepEqual (mainElement r1) t = true)
      by apply (deepEqual_trans _ _ _ Hdup H2).
    apply pop_decided; [exact Hdef| |exact H1].
    eapply Forall_impl; [exact Hfirst|]. simpl. intros r Hr.
    destruct (deepEqual (mainElement r) t) eqn:E; [|reflexivity].
    rewrite <- Hr. symmetry.
    apply (deepEqual_trans _ _ _ E). apply deepEqual_sym. exact H1.
  - intros its x cws'. apply pop_same_lookup. intros t.
    rewrite (Hskip t (mkRule (mainElement r2) cws') eq_refl).
    rewrite (Hskip t r2 eq_refl). reflexivity.
  - intros its x. apply pop_same_lookup. intros t.
    rewrite (Hskip t r2 eq_refl). reflexivity.
Qed.

End Shadowing.

(** ** No method of the engine throws *)

(** Every public method returns, in every state of the instance. *)
Lemma invoke_returns (deepEqual : value -> value -> bool)
  (c : method) (this : CounterweightStack) :
  exists v this', invoke deepEqual c this = Returns (v, this').
Proof.
  destruct this as [its rs].
  destruct c as [item|x| | | | |item]; cbn [invoke];
    try (eexists _, _; reflexivity);
    destruct its as [|t its _] using rev_ind;
    try (eexists _, _; reflexivity).
  - rewrite pop_snoc.
    set (p := if is_undefined t then _ else _).
    exists (fst p), (snd p). destruct p; reflexivity.
  - eexists _, _. apply peek_snoc.
  - unfold bind. rewrite compareTop_snoc. eexists _, _. reflexivity.
Qed.

(** * The usage example and other runs *)

Import Example.

(** The scenario of the usage example: push begin, push if; a pop with
    begin is refused, then/end pop if and begin in turn. *)
Example run_begin_if :
  (push beginToken ;;; push ifToken ;;; size) (mkStack [] myRules) =
    Returns (2, mkStack [beginToken; ifToken] myRules) /\
  pop deepEqual_structural beginToken (mkStack [beginToken; ifToken] myRules) =
    Returns (VUndefined, mkStack [beginToken; ifToken] myRules) /\
  pop deepEqual_structural thenToken (mkStack [beginToken; ifToken] myRules) =
    Returns (ifToken, mkStack [beginToken] myRules) /\
  peek (mkStack [beginToken] myRules) = Returns (beginToken, mkStack [beginToken] myRules) /\
  (pop deepEqual_structural endToken ;;; isEmpty) (mkStack [beginToken] myRules) =
    Returns (true, mkStack [] myRules).
Proof. repeat split. Qed.

(** An element without a rule stays on top whatever is offered. *)
Example run_stuck_token :
  pop deepEqual_structural endToken (mkStack [beginToken; someOtherToken] myRules) =
    Returns (VUndefined, mkStack [beginToken; someOtherToken] myRules) /\
  pop deepEqual_structural endDotToken (mkStack [beginToken; someOtherToken] myRules) =
    Returns (VUndefined, mkStack [beginToken; someOtherToken] myRules).
Proof. split; reflexivity. Qed.

(** * The claims that fail as stated, at concrete inputs *)



(** * The theorems at the inputs of the usage example *)


Lemma later_duplicate_rule_shadowed_witness :
  deepEqual_structural (VStr "begin") (VStr "begin") = true /\
  observe (pop deepEqual_structural (VStr "stop")
             (mkStack [VStr "begin"] ([] ++ mkRule (VStr "begin") [VStr "end"] :: [] ++ []))) =
  observe (pop deepEqual_structural (VStr "stop")
             (mkStack [VStr "begin"]
                ([] ++ mkRule (VStr "begin") [VStr "end"]
                    :: [] ++ mkRule (VStr "begin") [VStr "stop"] :: []))).
Proof.
  split; [reflexivity|].
  apply (later_duplicate_rule_shadowed deepEqual_structural
           deepEqual_structural_sym deepEqual_structural_trans
           [] (mkRule (VStr "begin") [VStr "end"]) []
           (mkRule (VStr "begin") [VStr "stop"]) []).
  - constructor.
  - reflexivity.
Defined.



(** * Further properties of the engine *)

Section EngineRuns.

Variable deepEqual : value -> value -> bool.

(** Whether a counterweight is valid depends on the rule table alone. *)
Lemma isValidCounterweight_any_items
  (main x : value) (its its' : list value) (rs : list CounterweightRule) (b : bool) :
  isValidCounterweight deepEqual main x (mkStack its rs) = Returns (b, mkStack its rs) ->
  isValidCounterweight deepEqual main x (mkStack its' rs) = Returns (b, mkStack its' rs).
Proof.
  rewrite !isValidCounterweight_eq. cbn [rules]. intros [= <-]. reflexivity.
Qed.

(** A pop either refuses and changes nothing, or removes a defined top for
    which the attempt is valid. *)
Lemma pop_cases (x : value) (this : CounterweightStack) :
  pop deepEqual x this = Returns (VUndefined, this) \/
  exists its t,
    items this = its ++ [t] /\
    is_undefined t = false /\
    isValidCounterweight deepEqual t x this = Returns (true, this) /\
    pop deepEqual x this = Returns (t, mkStack its (rules this)).
Proof.
  destruct this as [its rs]. destruct its as [|t its _] using rev_ind.
  - left. apply pop_nil.
  - rewrite pop_snoc.
    destruct (is_undefined t) eqn:Hdef; [left; reflexivity|].
    destruct (List.find (fun r => deepEqual (mainElement r) t) rs) as [r|] eqn:Hfind;
      [|left; reflexivity].
    destruct (existsb (fun cw => deepEqual cw x) (counterweights r)) eqn:Hcw;
      [|left; reflexivity].
    right. exists its, t. rewrite isValidCounterweight_eq. cbn [rules items].
    rewrite Hfind, Hcw. auto.
Qed.

(** The outcome of a pop on a defined top, by the validity of the attempt. *)
Lemma pop_valid (x : value) (its : list value) (t : value) (rs : list CounterweightRule) :
  is_undefined t = false ->
  isValidCounterweight deepEqual t x (mkStack (its ++ [t]) rs) =
    Returns (true, mkStack (its ++ [t]) rs) ->
  pop deepEqual x (mkStack (its ++ [t]) rs) = Returns (t, mkStack its rs).
Proof.
  intros Hdef. rewrite pop_snoc, isValidCounterweight_eq, Hdef. cbn [rules].
  destruct (List.find _ rs) as [r|]; [|discriminate].
  destruct (existsb _ (counterweights r)); [reflexivity|discriminate].
Qed.

(** A top that is [undefined] or has no rule is refused every attempt. *)
Lemma isValidCounterweight_unruled (t x : value) (this : CounterweightStack) :
  (forall r, In r (rules this) -> deepEqual (mainElement r) t = false) ->
  isValidCounterweight deepEqual t x this = Returns (false, this).
Proof.
  intros Hnone. rewrite isValidCounterweight_eq.
  rewrite (find_no_match (fun r => deepEqual (mainElement r) t) _ Hnone).
  reflexivity.
Qed.

Lemma peek_unchanged (this : CounterweightStack) :
  exists v, peek this = Returns (v, this).
Proof.
  destruct this as [its rs]. destruct its as [|t its _] using rev_ind.
  - eexists. apply peek_nil.
  - eexists. apply peek_snoc.
Qed.

Lemma compareTop_unchanged (item : value) (this : CounterweightStack) :
  exists b, compareTop deepEqual item this = Returns (b, this).
Proof.
  destruct this as [its rs]. destruct its as [|t its _] using rev_ind.
  - eexists. apply compareTop_nil.
  - eexists. apply compareTop_snoc.
Qed.

(** What one call does to the instance. *)
Lemma invoke_cases (c : method) (this : CounterweightStack) :
  exists v this',
    invoke deepEqual c this = Returns (v, this') /\
    rules this' = rules this /\
    match c with
    | Push item => v = VUndefined /\ items this' = items this ++ [item]
    | Pop x => pop deepEqual x this = Returns (v, this')
    | Clear => v = VUndefined /\ items this' = []
    | _ => this' = this
    end.
Proof.
  destruct c as [item|x| | | | |item]; cbn [invoke].
  - eexists _, _. split; [reflexivity|]. auto.
  - destruct (pop_cases x this) as [H|(its & t & _ & _ & _ & H)];
      rewrite H; eexists _, _; auto.
  - destruct (peek_unchanged this) as [v ->]. eexists _, _. auto.
  - eexists _, _. split; [reflexivity|]. auto.
  - eexists _, _. split; [reflexivity|]. auto.
  - eexists _, _. split; [reflexivity|]. auto.
  - unfold bind. destruct (compareTop_unchanged item this) as [b ->].
    eexists _, _. auto.
Qed.

Lemma invoke_all_cons (c : method) (cs : list method) (this this' : CounterweightStack)
  (v : value) :
  invoke deepEqual c this = Returns (v, this') ->
  invoke_all deepEqual (c :: cs) this =
  match invoke_all deepEqual cs this' with
  | Returns (vs, this'') => Returns (v :: vs, this'')
  | Throws e => Throws e
  end.
Proof.
  intros H. cbn [invoke_all]. unfold bind at 1. rewrite H.
  unfold bind, ret. destruct (invoke_all deepEqual cs this') as [[vs this'']|e];
    reflexivity.
Qed.

End EngineRuns.

Lemma existsb_same_elements {A} (f : A -> bool) (l l' : list A) :
  (forall a, In a l <-> In a l') ->
  existsb f l = existsb f l'.
Proof.
  intros Hsame. apply Bool.eq_iff_eq_true. rewrite !existsb_exists.
  split; intros (a & Hin & Hf); exists a; split; try apply Hsame; assumption.
Qed.

(** Two scans that test related elements alike stop at related elements. *)
Lemma find_related {A} (R : A -> A -> Prop) (f : A -> bool) (l l' : list A) :
  Forall2 R l l' ->
  (forall a a', R a a' -> f a = f a') ->
  match List.find f l, List.find f l' with
  | Some a, Some a' => R a a'
  | None, None => True
  | _, _ => False
  end.
Proof.
  intros Hll Hf. induction Hll as [|a a' l l' Haa _ IH]; simpl; [exact I|].
  rewrite <- (Hf a a' Haa). destruct (f a); [exact Haa|exact IH].
Qed.

Section EngineRunProperties.

Variable deepEqual : value -> value -> bool.

Lemma pop_all_app (xs ys : list value) (this : CounterweightStack) :
  pop_all deepEqual (xs ++ ys) this =
  match pop_all deepEqual xs this with
  | Returns (vs, this') =>
      match pop_all deepEqual ys this' with
      | Returns (ws, this'') => Returns (vs ++ ws, this'')
      | Throws e => Throws e
      end
  | Throws e => Throws e
  end.
Proof.
  revert this. induction xs as [|x xs IH]; intros this; simpl.
  - unfold ret. destruct (pop_all deepEqual ys this) as [[ws this'']|e]; reflexivity.
  - unfold bind at 1 3. destruct (pop deepEqual x this) as [[v this1]|e]; [|reflexivity].
    unfold bind. rewrite IH.
    destruct (pop_all deepEqual xs this1) as [[vs this2]|e]; [|reflexivity].
    unfold ret.
    destruct (pop_all deepEqual ys this2) as [[ws this3]|e]; reflexivity.
Qed.

(** X1: pushing an element other than [undefined] and popping it with a
    valid counterweight returns that element and puts the instance back in
    the state it had before the push. *)
Theorem push_pop_roundtrip (e x : value) (this : CounterweightStack) :
  is_undefined e = false ->
  isValidCounterweight deepEqual e x this = Returns (true, this) ->
  (push e ;;; pop deepEqual x) this = Returns (e, this).
Proof.
  destruct this as [its rs]. intros Hdef Hvalid.
  unfold bind. rewrite push_eq. cbn [items rules].
  apply pop_valid; [exact Hdef|].
  apply (isValidCounterweight_any_items deepEqual e x its). exact Hvalid.
Qed.



(** X4: an element that is [undefined], or that no rule's [mainElement] is
    deep-equal to, stays in the stack together with everything below it
    through every run of calls that contains no [clear()]: pops can only
    take away what was pushed above it. *)
Theorem stuck_element_stays
  (its : list value) (t : value) (above : list value)
  (rs : list CounterweightRule) (cs : list method) :
  (is_undefined t = true \/
   forall r, In r rs -> deepEqual (mainElement r) t = false) ->
  Forall (fun c => is_clear c = false) cs ->
  exists vs above',
    invoke_all deepEqual cs (mkStack (its ++ t :: above) rs) =
    Returns (vs, mkStack (its ++ t :: above') rs).
Proof.
  intros Hstuck Hcs. revert above.
  induction Hcs as [|c cs Hc _ IH]; intros above.
  - exists [], above. reflexivity.
  - assert (Hstep : exists v above1,
               invoke deepEqual c (mkStack (its ++ t :: above) rs) =
               Returns (v, mkStack (its ++ t :: above1) rs)).
    { destruct (invoke_cases deepEqual c (mkStack (its ++ t :: above) rs))
        as (v & [its1 rs1] & Hinv & Hrules & Hcase).
      simpl in Hrules. subst rs1. destruct c as [item|x| | | | |item];
        try discriminate Hc;
        try (injection Hcase as ->; exists v, above; exact Hinv).
      - destruct Hcase as [_ Hitems]. simpl in Hitems. subst its1.
        exists v, (above ++ [item]). rewrite Hinv.
        rewrite <- app_assoc. reflexivity.
      - cbn [invoke] in *.
        destruct (pop_cases deepEqual x (mkStack (its ++ t :: above) rs))
          as [H|(its2 & t2 & Hits & Hdef & Hvalid & H)].
        + exists VUndefined, above. exact H.
        + simpl in Hits. destruct above as [|a above _] using rev_ind.
          * apply app_inj_tail in Hits. destruct Hits as [<- <-].
            exfalso. destruct Hstuck as [Hu|Hnone]; [congruence|].
            rewrite (isValidCounterweight_unruled deepEqual t x) in Hvalid
              by exact Hnone.
            discriminate.
          * change (its ++ t :: above ++ [a]) with (its ++ (t :: above) ++ [a]) in Hits.
            rewrite app_assoc in Hits.
            apply app_inj_tail in Hits. destruct Hits as [<- <-].
            exists a, above. exact H. }
    destruct Hstep as (v & above1 & Hstep).
    destruct (IH above1) as (vs & above' & Hrest).
    exists (v :: vs), above'.
    rewrite (invoke_all_cons deepEqual c cs _ _ v Hstep), Hrest. reflexivity.
Qed.

(** X5: last in, first out.  When every element of a run of pushes is
    other than [undefined] and is paired with a valid counterweight, popping
    with the counterweights in reverse order returns the elements in reverse
    order and puts the instance back in the state it had before the pushes. *)
Theorem lifo_unwind (es xs : list value) (this : CounterweightStack) :
  Forall2 (fun e x =>
             is_undefined e = false /\
             isValidCounterweight deepEqual e x this = Returns (true, this)) es xs ->
  (push_all es ;;; pop_all deepEqual (rev xs)) this = Returns (rev es, this).
Proof.
  destruct this as [its rs]. intros Hpairs.
  unfold bind. rewrite push_all_eq. cbn [items rules].
  revert its Hpairs. intros its0 Hpairs.
  assert (Hgen : forall its,
             pop_all deepEqual (rev xs) (mkStack (its ++ es) rs) =
             Returns (rev es, mkStack its rs)).
  { induction Hpairs as [|e x es xs [Hdef Hvalid] _ IH]; intros its.
    - rewrite app_nil_r. reflexivity.
    - simpl rev. rewrite pop_all_app.
      replace (its ++ e :: es) with ((its ++ [e]) ++ es)
        by (rewrite <- app_assoc; reflexivity).
      rewrite IH. cbn [pop_all]. unfold bind, ret.
      rewrite (pop_valid deepEqual x its e rs Hdef).
      + reflexivity.
      + apply (isValidCounterweight_any_items deepEqual e x its0). exact Hvalid. }
  apply Hgen.
Qed.

(** X6: only membership in a counterweights list counts.  Two rule tables
    with the same main elements in the same order, whose counterweights
    lists hold the same elements in any order and with any duplication,
    give every pop the same outcome. *)
Theorem counterweights_order_irrelevant
  (rs rs' : list CounterweightRule) (its : list value) (x : value) :
  Forall2 (fun r r' =>
             mainElement r = mainElement r' /\
             forall cw, In cw (counterweights r) <-> In cw (counterweights r')) rs rs' ->
  observe (pop deepEqual x (mkStack its rs)) =
  observe (pop deepEqual x (mkStack its rs')).
Proof.
  intros Hrs. destruct its as [|t its _] using rev_ind; [reflexivity|].
  rewrite !pop_snoc. destruct (is_undefined t); [reflexivity|].
  pose proof (find_related _ (fun r => deepEqual (mainElement r) t) rs rs' Hrs) as Hfind.
  simpl in Hfind.
  destruct (List.find _ rs) as [r|]; destruct (List.find _ rs') as [r'|];
    try (exfalso; apply Hfind; intros a a' [-> _]; reflexivity); [|reflexivity].
  assert (Hrr : mainElement r = mainElement r' /\
                forall cw, In cw (counterweights r) <-> In cw (counterweights r'))
    by (apply Hfind; intros a a' [-> _]; reflexivity).
  destruct Hrr as [_ Hsame].
  rewrite (existsb_same_elements (fun cw => deepEqual cw x) _ _ Hsame).
  destruct (existsb _ (counterweights r')); reflexivity.
Qed.

(** X7: the size is the pushes less the successful pops.  Over a run of
    calls that contains no [clear()], the number of elements at the end plus
    the number of pops that returned an element equals the number of
    elements at the start plus the number of pushes. *)
Theorem size_accounting (cs : list method) (this : CounterweightStack) :
  Forall (fun c => is_clear c = false) cs ->
  exists vs this' n0 n1,
    invoke_all deepEqual cs this = Returns (vs, this') /\
    size this = Returns (n0, this) /\
    size this' = Returns (n1, this') /\
    n1 + popped cs vs = n0 + pushed cs.
Proof.
  intros Hcs.
  assert (Hgen : exists vs this',
             invoke_all deepEqual cs this = Returns (vs, this') /\
             length (items this') + popped cs vs = length (items this) + pushed cs);
    [|destruct Hgen as (vs & this' & Hrun & Hcount);
      exists vs, this', (length (items this)), (length (items this'));
      rewrite !size_eq; auto].
  revert this. induction Hcs as [|c cs Hc _ IH]; intros this.
  - exists [], this. split; reflexivity.
  - destruct (invoke_cases deepEqual c this) as (v & this1 & Hinv & _ & Hcase).
    destruct (IH this1) as (vs & this2 & Hrest & Hcount).
    exists (v :: vs), this2.
    rewrite (invoke_all_cons deepEqual c cs this this1 v Hinv), Hrest.
    split; [reflexivity|].
    destruct c as [item|x| | | | |item]; try discriminate Hc;
      cbn [popped pushed]; try (subst this1; exact Hcount).
    + destruct Hcase as [_ Hitems]. rewrite Hitems, length_app in Hcount.
      simpl in Hcount. lia.
    + destruct (pop_cases deepEqual x this) as [H|(its & t & Hits & Hdef & _ & H)];
        rewrite H in Hcase; injection Hcase as <- <-.
      * simpl. exact Hcount.
      * rewrite Hdef. rewrite Hits, length_app. simpl in *. lia.
Qed.

(** X11: the observers agree and change nothing.  [isEmpty()], [size()],
    [peek()] and [compareTop(item)] leave the instance as it was; [isEmpty()]
    is true exactly when [size()] is 0, and then [peek()] is [undefined] and
    [compareTop] is false for every item; otherwise [peek()] is the last
    element of the sequence, which may itself be [undefined]. *)
Theorem observers_agree (this : CounterweightStack) :
  exists b n v,
    isEmpty this = Returns (b, this) /\
    size this = Returns (n, this) /\
    peek this = Returns (v, this) /\
    (b = true <-> n = 0) /\
    (b = true ->
     v = VUndefined /\
     forall item, compareTop deepEqual item this = Returns (false, this)) /\
    (b = false ->
     (exists its, items this = its ++ [v]) /\
     forall item, compareTop deepEqual item this = Returns (deepEqual v item, this)).
Proof.
  destruct this as [its rs]. destruct its as [|t its _] using rev_ind.
  - exists true, 0, VUndefined. repeat split; auto; discriminate.
  - exists false, (length (its ++ [t])), t.
    rewrite isEmpty_eq, size_eq, peek_snoc. cbn [items].
    rewrite length_snoc_eqb. repeat split; try discriminate.
    + rewrite length_app. simpl. lia.
    + exists its. reflexivity.
    + intros item. apply compareTop_snoc.
Qed.

End EngineRunProperties.

(** * The further theorems at the inputs of the usage example *)

Lemma push_pop_roundtrip_witness :
  is_undefined ifToken = false /\
  (push ifToken ;;; pop deepEqual_structural thenToken) (mkStack [beginToken] myRules) =
  Returns (ifToken, mkStack [beginToken] myRules).
Proof.
  split; [reflexivity|].
  apply (push_pop_roundtrip deepEqual_structural ifToken thenToken
           (mkStack [beginToken] myRules)); reflexivity.
Defined.

Lemma stuck_element_stays_witness :
  exists vs above',
    invoke_all deepEqual_structural
      [Pop endToken; Push ifToken; Pop endDotToken; Pop thenToken; Pop thenToken]
      (mkStack ([beginToken] ++ someOtherToken :: []) myRules) =
    Returns (vs, mkStack ([beginToken] ++ someOtherToken :: above') myRules).
Proof.
  apply (stuck_element_stays deepEqual_structural [beginToken] someOtherToken [] myRules).
  - right. intros r [<-|[<-|[]]]; reflexivity.
  - repeat constructor.
Defined.

Lemma lifo_unwind_witness :
  (push_all [beginToken; ifToken] ;;;
   pop_all deepEqual_structural (rev [endDotToken; thenToken]))
    (mkStack [someOtherToken] myRules) =
  Returns (rev [beginToken; ifToken], mkStack [someOtherToken] myRules).
Proof.
  apply (lifo_unwind deepEqual_structural [beginToken; ifToken] [endDotToken; thenToken]).
  repeat constructor.
Defined.

Lemma counterweights_order_irrelevant_witness :
  observe (pop deepEqual_structural endToken
             (mkStack [beginToken] [mkRule beginToken [endToken; endDotToken]])) =
  observe (pop deepEqual_structural endToken
             (mkStack [beginToken] [mkRule beginToken [endDotToken; endToken; endDotToken]])).
Proof.
  apply (counterweights_order_irrelevant deepEqual_structural).
  constructor; [|constructor]. split; [reflexivity|].
  intros cw. simpl. tauto.
Defined.

Lemma size_accounting_witness :
  exists vs this' n0 n1,
    invoke_all deepEqual_structural
      [Push beginToken; Push ifToken; Pop beginToken; Pop thenToken; Size]
      (mkStack [] myRules) = Returns (vs, this') /\
    size (mkStack [] myRules) = Returns (n0, mkStack [] myRules) /\
    size this' = Returns (n1, this') /\
    n1 + popped [Push beginToken; Push ifToken; Pop beginToken; Pop thenToken; Size] vs =
    n0 + pushed [Push beginToken; Push ifToken; Pop beginToken; Pop thenToken; Size].
Proof.
  apply (size_accounting deepEqual_structural). repeat constructor.
Defined.

(** The calls of [src/src/example.ts], in order, with the values the script
    prints next to each. *)
Example example_ts_run :
  invoke_all deepEqual_structural
    [ Push beginToken; Size; Peek;
      Push ifToken; Size; Peek;
      Pop beginToken; Size; Peek;
      Pop thenToken; Size; Peek;
      Push someOtherToken; Size; Peek;
      Pop endToken; Size; Peek;
      Pop endDotToken; Size; Peek ]
    (mkStack [] myRules) =
  Returns
    ([ VUndefined; VNum 1; beginToken;
       VUndefined; VNum 2; ifToken;
       VUndefined; VNum 2; ifToken;
       ifToken; VNum 1; beginToken;
       VUndefined; VNum 2; someOtherToken;
       VUndefined; VNum 2; someOtherToken;
       VUndefined; VNum 2; someOtherToken ],
     mkStack [beginToken; someOtherToken] myRules) /\
  invoke_all deepEqual_structural
    [ Push beginToken; Push ifToken; Size; Peek;
      Pop thenToken; Size; Peek;
      Pop endToken; Size; Peek; IsEmpty ]
    (mkStack [] myRules) =
  Returns
    ([ VUndefined; VUndefined; VNum 2; ifToken;
       ifToken; VNum 1; beginToken;
       beginToken; VNum 0; VUndefined; VBool true ],
     mkStack [] myRules).
Proof. split; vm_compute; reflexivity. Qed.

(** A stack whose top is [undefined] is not empty although [peek()] returns
    [undefined]. *)
Lemma observers_agree_witness :
  exists b n v,
    isEmpty (mkStack [beginToken; VUndefined] myRules) =
      Returns (b, mkStack [beginToken; VUndefined] myRules) /\
    size (mkStack [beginToken; VUndefined] myRules) =
      Returns (n, mkStack [beginToken; VUndefined] myRules) /\
    peek (mkStack [beginToken; VUndefined] myRules) =
      Returns (v, mkStack [beginToken; VUndefined] myRules) /\
    b = false /\ n = 2 /\ v = VUndefined.
Proof.
  destruct (observers_agree deepEqual_structural (mkStack [beginToken; VUndefined] myRules))
    as (b & n & v & Hb & Hn & Hv & _).
  exists b, n, v. repeat split; try assumption.
  - vm_compute in Hb. congruence.
  - vm_compute in Hn. congruence.
  - vm_compute in Hv. congruence.
Defined.

(** * The class in memory *)

(** ** Equations of the methods in memory *)

Section HeapEquations.

Variable deepEqual : value -> value -> bool.

Lemma heap_array_get_last (its : list Heap.val) (t : Heap.val) :
  Heap.array_get (its ++ [t]) (length (its ++ [t]) - 1) = t.
Proof.
  unfold Heap.array_get. rewrite length_app. simpl.
  replace (length its + 1 - 1) with (length its) by lia.
  induction its as [|i its IH]; simpl; auto.
Qed.

Lemma heap_length_snoc_eqb (its : list Heap.val) (t : Heap.val) :
  Nat.eqb (length (its ++ [t])) 0 = false.
Proof.
  rewrite length_app. simpl. apply Nat.eqb_neq. lia.
Qed.

Lemma heap_peek_snoc (h : Heap.heap) (its : list Heap.val) (t : Heap.val) (a : Heap.loc) :
  Heap.peek h (Heap.mkInstance (its ++ [t]) a) =
  Some (Returns (t, Heap.mkInstance (its ++ [t]) a)).
Proof.
  cbv beta iota delta [Heap.peek Heap.bind Heap.isEmpty Heap.get_items Heap.ret
                         Heap.inst_items].
  rewrite heap_length_snoc_eqb, heap_array_get_last. reflexivity.
Qed.

Lemma heap_array_pop_snoc (h : Heap.heap) (its : list Heap.val) (t : Heap.val) (a : Heap.loc) :
  Heap.array_pop h (Heap.mkInstance (its ++ [t]) a) =
  Some (Returns (t, Heap.mkInstance its a)).
Proof.
  cbv beta iota delta [Heap.array_pop Heap.bind Heap.get_items Heap.inst_items].
  destruct (its ++ [t]) as [|i l] eqn:E.
  - destruct its; discriminate.
  - rewrite <- E.
    cbv beta iota delta [Heap.bind Heap.set_items Heap.ret Heap.inst_rules].
    rewrite List.removelast_last, List.last_last. reflexivity.
Qed.

(** [isValidCounterweight] reads memory and leaves the instance alone. *)
Lemma heap_isValidCounterweight_unchanged
  (main x : Heap.val) (h : Heap.heap) (o : Heap.instance) :
  exists r : option (outcome bool),
    Heap.isValidCounterweight deepEqual main x h o =
    match r with
    | Some (Returns b) => Some (Returns (b, o))
    | Some (Throws e) => Some (Throws e)
    | None => None
    end.
Proof.
  cbv beta iota delta [Heap.isValidCounterweight Heap.bind Heap.get_rules Heap.read].
  match goal with |- context [match ?r h with _ => _ end] => exists (r h) end.
  reflexivity.
Qed.

Lemma heap_pop_nil (x : Heap.val) (h : Heap.heap) (a : Heap.loc) :
  Heap.pop deepEqual x h (Heap.mkInstance [] a) =
  Some (Returns (Heap.undefined, Heap.mkInstance [] a)).
Proof. reflexivity. Qed.

(** The ways a pop on a non-empty stack ends. *)
Lemma heap_pop_snoc (x : Heap.val) (h : Heap.heap) (its : list Heap.val) (t : Heap.val)
  (a : Heap.loc) :
  Heap.pop deepEqual x h (Heap.mkInstance (its ++ [t]) a) =
  if Heap.is_undefined t
  then Some (Returns (Heap.undefined, Heap.mkInstance (its ++ [t]) a))
  else
    match Heap.isValidCounterweight deepEqual t x h (Heap.mkInstance (its ++ [t]) a) with
    | Some (Returns (true, _)) => Some (Returns (t, Heap.mkInstance its a))
    | Some (Returns (false, _)) =>
        Some (Returns (Heap.undefined, Heap.mkInstance (its ++ [t]) a))
    | Some (Throws e) => Some (Throws e)
    | None => None
    end.
Proof.
  unfold Heap.pop. unfold Heap.bind at 1.
  replace (Heap.isEmpty h (Heap.mkInstance (its ++ [t]) a))
    with (Some (Returns (false, Heap.mkInstance (its ++ [t]) a)))
    by (cbv beta iota delta [Heap.bind Heap.isEmpty Heap.get_items Heap.ret
                               Heap.inst_items];
        rewrite heap_length_snoc_eqb; reflexivity).
  unfold Heap.bind at 1. rewrite heap_peek_snoc.
  destruct (Heap.is_undefined t); [reflexivity|].
  unfold Heap.bind at 1.
  destruct (heap_isValidCounterweight_unchanged t x h (Heap.mkInstance (its ++ [t]) a))
    as [[[b|e]|] ->]; try reflexivity.
  destruct b; [apply heap_array_pop_snoc|reflexivity].
Qed.

Lemma heap_compareTop_snoc (item : Heap.val) (h : Heap.heap) (its : list Heap.val)
  (t : Heap.val) (a : Heap.loc) :
  Heap.compareTop deepEqual item h (Heap.mkInstance (its ++ [t]) a) =
  match Heap.resolve h t, Heap.resolve h item with
  | Some tv, Some iv =>
      Some (Returns (deepEqual tv iv, Heap.mkInstance (its ++ [t]) a))
  | _, _ => None
  end.
Proof.
  unfold Heap.compareTop. unfold Heap.bind at 1.
  replace (Heap.isEmpty h (Heap.mkInstance (its ++ [t]) a))
    with (Some (Returns (false, Heap.mkInstance (its ++ [t]) a)))
    by (cbv beta iota delta [Heap.bind Heap.isEmpty Heap.get_items Heap.ret
                               Heap.inst_items];
        rewrite heap_length_snoc_eqb; reflexivity).
  unfold Heap.bind. rewrite heap_peek_snoc.
  unfold Heap.read, Heap.call_deepEqual.
  destruct (Heap.resolve h t); [|reflexivity].
  destruct (Heap.resolve h item); reflexivity.
Qed.

End HeapEquations.

(** ** What the methods read of memory *)

Lemma resolve_weaken (h h' : Heap.heap) (v : Heap.val) (c : value) :
  h ⊆ h' -> Heap.resolve h v = Some c -> Heap.resolve h' v = Some c.
Proof.
  intros Hsub. destruct v as [x|l]; simpl; [auto|].
  destruct (h !! l) as [[c0| | |]|] eqn:Hl; try discriminate.
  intros [= <-]. rewrite (lookup_weaken _ _ _ _ Hl Hsub). reflexivity.
Qed.

Lemma rule_view_Some (h : Heap.heap) (l : Heap.loc) (r : CounterweightRule) :
  Heap.rule_view h l = Some r <->
  exists mv c cws,
    h !! l = Some (Heap.ORule mv c) /\
    h !! c = Some (Heap.OValues cws) /\
    Heap.resolve h mv = Some (mainElement r) /\
    mapM (Heap.resolve h) cws = Some (counterweights r).
Proof.
  unfold Heap.rule_view. split.
  - destruct (h !! l) as [[c0|vs|mv c|ss]|] eqn:Hl; try discriminate.
    destruct (h !! c) as [[c0|cws|mv' c'|ss]|] eqn:Hc; try discriminate.
    destruct (Heap.resolve h mv) as [m'|] eqn:Hm; [|discriminate].
    destruct (mapM (Heap.resolve h) cws) as [cws'|] eqn:Hcws; [|discriminate].
    intros [= <-]. exists mv, c, cws. simpl. auto.
  - intros (mv & c & cws & -> & -> & -> & ->). destruct r; reflexivity.
Qed.

Lemma slot_view_Some (h : Heap.heap) (s : option Heap.loc) (v : option CounterweightRule) :
  Heap.slot_view h s = Some v <->
  match s, v with
  | None, None => True
  | Some l, Some r => Heap.rule_view h l = Some r
  | _, _ => False
  end.
Proof.
  unfold Heap.slot_view.
  destruct s as [l|], v as [r|]; try destruct (Heap.rule_view h l);
    split; intros H; try congruence; try contradiction; try discriminate; auto.
Qed.

Lemma table_view_Some (h : Heap.heap) (a : Heap.loc) (tbl : list (option CounterweightRule)) :
  Heap.table_view h a = Some tbl <->
  exists slots,
    h !! a = Some (Heap.ORules slots) /\
    Forall2 (fun s v => Heap.slot_view h s = Some v) slots tbl.
Proof.
  unfold Heap.table_view. split.
  - destruct (h !! a) as [[c0|vs|mv c|slots]|]; try discriminate.
    intros Hm. exists slots. split; [reflexivity|]. apply mapM_Some. exact Hm.
  - intros (slots & -> & Hm). apply mapM_Some. exact Hm.
Qed.

Lemma mapM_resolve_weaken (h h' : Heap.heap) (vs : list Heap.val) (cs : list value) :
  h ⊆ h' ->
  mapM (Heap.resolve h) vs = Some cs ->
  mapM (Heap.resolve h') vs = Some cs.
Proof.
  intros Hsub. rewrite !mapM_Some. intros H.
  eapply Forall2_impl; [exact H|]. intros v c. apply resolve_weaken. exact Hsub.
Qed.

Lemma rule_view_weaken (h h' : Heap.heap) (l : Heap.loc) (r : CounterweightRule) :
  h ⊆ h' -> Heap.rule_view h l = Some r -> Heap.rule_view h' l = Some r.
Proof.
  intros Hsub. rewrite !rule_view_Some.
  intros (mv & c & cws & Hl & Hc & Hm & Hcws). exists mv, c, cws.
  split; [eapply lookup_weaken; eassumption|].
  split; [eapply lookup_weaken; eassumption|].
  split; [eapply resolve_weaken; eassumption|].
  eapply mapM_resolve_weaken; eassumption.
Qed.

Lemma slot_view_weaken (h h' : Heap.heap) (s : option Heap.loc)
  (v : option CounterweightRule) :
  h ⊆ h' -> Heap.slot_view h s = Some v -> Heap.slot_view h' s = Some v.
Proof.
  intros Hsub. rewrite !slot_view_Some. destruct s, v; auto.
  apply rule_view_weaken. exact Hsub.
Qed.

Section HeapReads.

Variable deepEqual : value -> value -> bool.

(** The scan of [find] over a typed rule array: it stops at the first rule
    that matches, and throws at a hole that comes before one. *)
Lemma heap_find_view (h : Heap.heap) (main : Heap.val) (m : value)
  (slots : list (option Heap.loc)) (tbl : list (option CounterweightRule)) :
  Forall2 (fun s v => Heap.slot_view h s = Some v) slots tbl ->
  Heap.resolve h main = Some m ->
  match List.find (fun s => match s with
                            | Some r => deepEqual (mainElement r) m
                            | None => true
                            end) tbl with
  | None =>
      Heap.find_js
        (fun r => Heap.rbind (Heap.get_mainElement r)
                    (fun mv => Heap.call_deepEqual deepEqual mv main)) slots h =
      Some (Returns None)
  | Some None =>
      Heap.find_js
        (fun r => Heap.rbind (Heap.get_mainElement r)
                    (fun mv => Heap.call_deepEqual deepEqual mv main)) slots h =
      Some (Throws TypeError)
  | Some (Some r) =>
      exists l,
        Heap.find_js
          (fun r => Heap.rbind (Heap.get_mainElement r)
                      (fun mv => Heap.call_deepEqual deepEqual mv main)) slots h =
        Some (Returns (Some l)) /\
        Heap.rule_view h l = Some r
  end.
Proof.
  intros Hslots Hmain.
  induction Hslots as [|s v slots tbl Hs _ IH]; [reflexivity|].
  apply slot_view_Some in Hs. destruct s as [l|], v as [r|]; try contradiction.
  - pose proof Hs as Hview. apply rule_view_Some in Hs.
    destruct Hs as (mv & c & cws & Hl & Hc & Hm & Hcws).
    set (F := fun r => Heap.rbind (Heap.get_mainElement r)
                        (fun mv => Heap.call_deepEqual deepEqual mv main)) in *.
    assert (Hstep : Heap.find_js F (Some l :: slots) h =
                    if deepEqual (mainElement r) m
                    then Some (Returns (Some l))
                    else Heap.find_js F slots h).
    { cbn [Heap.find_js]. unfold Heap.rbind at 1. unfold F at 1.
      unfold Heap.rbind, Heap.get_mainElement, Heap.call_deepEqual.
      rewrite Hl, Hm, Hmain.
      destruct (deepEqual (mainElement r) m); reflexivity. }
    rewrite Hstep. cbn [List.find].
    destruct (deepEqual (mainElement r) m).
    + exists l. split; [reflexivity|exact Hview].
    + exact IH.
  - reflexivity.
Qed.

Lemma heap_some_view (h : Heap.heap) (pc : Heap.val) (p : value)
  (cws : list Heap.val) (cs : list value) :
  mapM (Heap.resolve h) cws = Some cs ->
  Heap.resolve h pc = Some p ->
  Heap.some_js (fun cw => Heap.call_deepEqual deepEqual cw pc) cws h =
  Some (Returns (existsb (fun c => deepEqual c p) cs)).
Proof.
  rewrite mapM_Some. intros Hcws Hpc.
  induction Hcws as [|cw c cws cs Hcw _ IH]; [reflexivity|].
  cbn [Heap.some_js existsb]. unfold Heap.rbind at 1.
  unfold Heap.call_deepEqual at 1. rewrite Hcw, Hpc.
  destruct (deepEqual c p); [reflexivity|exact IH].
Qed.

(** [isValidCounterweight] on typed memory, by the table the rule array
    holds and the contents of the two elements. *)
Lemma heap_isValidCounterweight_view
  (h : Heap.heap) (o : Heap.instance) (tbl : list (option CounterweightRule))
  (main pc : Heap.val) (m p : value) :
  Heap.table_view h (Heap.inst_rules o) = Some tbl ->
  Heap.resolve h main = Some m ->
  Heap.resolve h pc = Some p ->
  Heap.isValidCounterweight deepEqual main pc h o =
  Some (match List.find (fun s => match s with
                                  | Some r => deepEqual (mainElement r) m
                                  | None => true
                                  end) tbl with
        | None => Returns (false, o)
        | Some None => Throws TypeError
        | Some (Some r) =>
            Returns (existsb (fun c => deepEqual c p) (counterweights r), o)
        end).
Proof.
  intros Htbl Hmain Hpc. apply table_view_Some in Htbl.
  destruct Htbl as (slots & Ha & Hslots).
  pose proof (heap_find_view h main m slots tbl Hslots Hmain) as Hfind.
  cbv beta iota delta [Heap.isValidCounterweight Heap.bind Heap.get_rules Heap.read].
  unfold Heap.rbind at 1. unfold Heap.get_slots at 1. rewrite Ha.
  unfold Heap.rbind at 1.
  destruct (List.find _ tbl) as [[r|]|].
  - destruct Hfind as (l & -> & Hview). cbn [Heap.not_found].
    apply rule_view_Some in Hview.
    destruct Hview as (mv & c & cws & Hl & Hc & _ & Hcws).
    unfold Heap.rbind, Heap.get_counterweights. rewrite Hl, Hc.
    rewrite (heap_some_view h pc p cws _ Hcws Hpc). reflexivity.
  - rewrite Hfind. reflexivity.
  - rewrite Hfind. reflexivity.
Qed.

End HeapReads.

(** ** What the constructor allocates *)

Lemma alloc_spec (h : Heap.heap) (o : Heap.obj) :
  (h ⊆ fst (Heap.alloc h o)) /\
  (snd (Heap.alloc h o) ∉ dom h) /\
  fst (Heap.alloc h o) !! snd (Heap.alloc h o) = Some o.
Proof.
  unfold Heap.alloc. simpl. split; [|split].
  - apply insert_subseteq. apply not_elem_of_dom, is_fresh.
  - apply is_fresh.
  - apply lookup_insert_eq.
Qed.

Lemma keeps_new_mono (h0 ha hb h1 h2 : Heap.heap) :
  h0 ⊆ ha -> hb ⊆ h1 ->
  Heap.keeps_new h0 h1 h2 -> Heap.keeps_new ha hb h2.
Proof.
  intros H0a Hb1 Hkeep l Hna Hb.
  assert (Hn0 : l ∉ dom h0).
  { intros Hin. apply Hna. apply (subseteq_dom _ _ H0a). exact Hin. }
  apply elem_of_dom in Hb. destruct Hb as [o Ho].
  pose proof (lookup_weaken _ _ _ _ Ho Hb1) as Ho1.
  rewrite Ho, <- Ho1. apply Hkeep; [exact Hn0|].
  apply elem_of_dom. eauto.
Qed.

Lemma keeps_new_lookup (h0 h1 h2 : Heap.heap) (l : Heap.loc) (o : Heap.obj) :
  Heap.keeps_new h0 h1 h2 ->
  l ∉ dom h0 -> h1 !! l = Some o -> h2 !! l = Some o.
Proof.
  intros Hkeep Hn Hl. rewrite <- Hl. apply Hkeep; [exact Hn|].
  apply elem_of_dom. eauto.
Qed.

Lemma clone_val_spec (h : Heap.heap) (v : Heap.val) (c : value) :
  Heap.resolve h v = Some c ->
  if cloneable c
  then exists h' v',
         Heap.clone_val h v = Some (Returns (h', v')) /\
         (h ⊆ h') /\
         forall h2, Heap.keeps_new h h' h2 -> Heap.resolve h2 v' = Some c
  else Heap.clone_val h v = Some (Throws DataCloneError).
Proof.
  destruct v as [x|l]; cbn [Heap.resolve Heap.clone_val].
  - intros [= ->]. destruct (cloneable c); [|reflexivity].
    exists h, (Heap.Imm c). split; [reflexivity|]. split; [reflexivity|]. auto.
  - destruct (h !! l) as [[fs| | |]|] eqn:Hl; try discriminate.
    intros [= <-]. destruct (cloneable (VObj fs)); [|reflexivity].
    destruct (alloc_spec h (Heap.OElem fs)) as (Hsub & Hnew & Hcell).
    unfold Heap.alloc in *. cbn [fst snd] in *.
    exists (<[fresh (dom h) := Heap.OElem fs]> h), (Heap.Ref (fresh (dom h))).
    split; [reflexivity|]. split; [exact Hsub|].
    intros h2 Hkeep. cbn [Heap.resolve].
    rewrite (keeps_new_lookup _ _ _ _ _ Hkeep Hnew Hcell). reflexivity.
Qed.

Lemma clone_vals_spec (vs : list Heap.val) (h : Heap.heap) (cs : list value) :
  mapM (Heap.resolve h) vs = Some cs ->
  if forallb cloneable cs
  then exists h' vs',
         Heap.clone_vals h vs = Some (Returns (h', vs')) /\
         (h ⊆ h') /\
         forall h2, Heap.keeps_new h h' h2 -> mapM (Heap.resolve h2) vs' = Some cs
  else Heap.clone_vals h vs = Some (Throws DataCloneError).
Proof.
  revert h cs. induction vs as [|v vs IH]; intros h cs Hcs.
  - apply mapM_Some in Hcs. inversion Hcs; subst. simpl.
    exists h, []. split; [reflexivity|]. split; [reflexivity|]. auto.
  - apply mapM_Some in Hcs. inversion Hcs as [|? c ? cs' Hv Hvs]; subst.
    apply mapM_Some in Hvs. cbn [forallb Heap.clone_vals].
    pose proof (clone_val_spec h v c Hv) as Hone.
    destruct (cloneable c); [|rewrite Hone; reflexivity].
    destruct Hone as (h1 & v' & -> & Hsub1 & Hkeep1).
    pose proof (IH h1 cs' (mapM_resolve_weaken _ _ _ _ Hsub1 Hvs)) as Hrest.
    cbn [andb]. destruct (forallb cloneable cs'); [|rewrite Hrest; reflexivity].
    destruct Hrest as (h2 & vs' & -> & Hsub2 & Hkeep2).
    exists h2, (v' :: vs'). split; [reflexivity|].
    split; [etransitivity; eassumption|].
    intros hx Hkeep. apply mapM_Some. constructor.
    + apply Hkeep1. apply (keeps_new_mono h h h1 h2); [reflexivity|exact Hsub2|exact Hkeep].
    + apply mapM_Some. apply Hkeep2.
      apply (keeps_new_mono h h1 h2 h2); [exact Hsub1|reflexivity|exact Hkeep].
Qed.

Lemma clone_rule_spec (h : Heap.heap) (l : Heap.loc) (r : CounterweightRule) :
  Heap.rule_view h l = Some r ->
  if cloneable_rule r
  then exists h' l',
         Heap.clone_rule h l = Some (Returns (h', l')) /\
         (h ⊆ h') /\
         forall h2, Heap.keeps_new h h' h2 -> Heap.rule_view h2 l' = Some r
  else Heap.clone_rule h l = Some (Throws DataCloneError).
Proof.
  intros Hview. apply rule_view_Some in Hview.
  destruct Hview as (mv & c & cws & Hl & Hc & Hm & Hcws).
  unfold Heap.clone_rule, cloneable_rule. rewrite Hl, Hc.
  pose proof (clone_val_spec h mv _ Hm) as Hone.
  destruct (cloneable (mainElement r)); [|rewrite Hone; reflexivity].
  destruct Hone as (h1 & m' & -> & Hsub1 & Hkeep1).
  pose proof (clone_vals_spec cws h1 _ (mapM_resolve_weaken _ _ _ _ Hsub1 Hcws)) as Hrest.
  cbn [andb]. destruct (forallb cloneable (counterweights r));
    [|rewrite Hrest; reflexivity].
  destruct Hrest as (h2 & cws' & -> & Hsub2 & Hkeep2).
  destruct (alloc_spec h2 (Heap.OValues cws')) as (Hsub3 & Hnew3 & Hcell3).
  destruct (Heap.alloc h2 (Heap.OValues cws')) as [h3 c'] eqn:E3. simpl in *.
  destruct (alloc_spec h3 (Heap.ORule m' c')) as (Hsub4 & Hnew4 & Hcell4).
  destruct (Heap.alloc h3 (Heap.ORule m' c')) as [h4 l'] eqn:E4. simpl in *.
  exists h4, l'. split; [reflexivity|].
  assert (Hsub02 : h ⊆ h2) by (etransitivity; eassumption).
  assert (Hsub03 : h ⊆ h3) by (etransitivity; eassumption).
  split; [etransitivity; eassumption|].
  intros hx Hkeep. apply rule_view_Some. exists m', c', cws'.
  split; [|split; [|split]].
  - apply (keeps_new_lookup h h4 hx); [exact Hkeep| |exact Hcell4].
    intros Hin. apply Hnew4. apply (subseteq_dom _ _ Hsub03). exact Hin.
  - apply (keeps_new_lookup h h4 hx); [exact Hkeep| |].
    + intros Hin. apply Hnew3. apply (subseteq_dom _ _ Hsub02). exact Hin.
    + eapply lookup_weaken; eassumption.
  - simpl. apply Hkeep1. apply (keeps_new_mono h h h1 h4); [reflexivity| |exact Hkeep].
    etransitivity; [exact Hsub2|]. etransitivity; eassumption.
  - simpl. apply Hkeep2. apply (keeps_new_mono h h1 h2 h4); [exact Hsub1| |exact Hkeep].
    etransitivity; eassumption.
Qed.

Lemma clone_slots_spec (slots : list (option Heap.loc)) (h : Heap.heap)
  (tbl : list (option CounterweightRule)) :
  mapM (Heap.slot_view h) slots = Some tbl ->
  if Heap.cloneable_table tbl
  then exists h' slots',
         Heap.clone_slots h slots = Some (Returns (h', slots')) /\
         (h ⊆ h') /\
         forall h2, Heap.keeps_new h h' h2 ->
                    mapM (Heap.slot_view h2) slots' = Some tbl
  else Heap.clone_slots h slots = Some (Throws DataCloneError).
Proof.
  revert h tbl. induction slots as [|s slots IH]; intros h tbl Htbl.
  - apply mapM_Some in Htbl. inversion Htbl; subst. simpl.
    exists h, []. split; [reflexivity|]. split; [reflexivity|]. auto.
  - apply mapM_Some in Htbl. inversion Htbl as [|? v ? tbl' Hs Hslots]; subst.
    apply mapM_Some in Hslots. apply slot_view_Some in Hs.
    unfold Heap.cloneable_table. cbn [forallb Heap.clone_slots].
    fold (Heap.cloneable_table tbl').
    destruct s as [l|], v as [r|]; try contradiction.
    + pose proof (clone_rule_spec h l r Hs) as Hone.
      destruct (cloneable_rule r); [|rewrite Hone; reflexivity].
      destruct Hone as (h1 & l' & -> & Hsub1 & Hkeep1).
      assert (Hslots1 : mapM (Heap.slot_view h1) slots = Some tbl').
      { apply mapM_Some. apply mapM_Some in Hslots.
        eapply Forall2_impl; [exact Hslots|]. intros s v.
        apply slot_view_weaken. exact Hsub1. }
      pose proof (IH h1 tbl' Hslots1) as Hrest.
      cbn [andb]. destruct (Heap.cloneable_table tbl'); [|rewrite Hrest; reflexivity].
      destruct Hrest as (h2 & slots' & -> & Hsub2 & Hkeep2).
      exists h2, (Some l' :: slots'). split; [reflexivity|].
      split; [etransitivity; eassumption|].
      intros hx Hkeep. apply mapM_Some. constructor.
      * apply slot_view_Some. apply Hkeep1.
        apply (keeps_new_mono h h h1 h2); [reflexivity|exact Hsub2|exact Hkeep].
      * apply mapM_Some. apply Hkeep2.
        apply (keeps_new_mono h h1 h2 h2); [exact Hsub1|reflexivity|exact Hkeep].
    + pose proof (IH h tbl' Hslots) as Hrest.
      cbn [andb]. destruct (Heap.cloneable_table tbl'); [|rewrite Hrest; reflexivity].
      destruct Hrest as (h2 & slots' & -> & Hsub2 & Hkeep2).
      exists h2, (None :: slots'). split; [reflexivity|]. split; [exact Hsub2|].
      intros hx Hkeep. apply mapM_Some. constructor; [reflexivity|].
      apply mapM_Some. apply Hkeep2. exact Hkeep.
Qed.

(** What [structuredClone] does on a typed rule array: it throws when a rule
    cannot be cloned; otherwise it allocates a table with the same contents
    in cells that were not in use. *)
Lemma structuredClone_spec (h : Heap.heap) (a : Heap.loc)
  (tbl : list (option CounterweightRule)) :
  Heap.table_view h a = Some tbl ->
  if Heap.cloneable_table tbl
  then exists h' a',
         Heap.structuredClone h a = Some (Returns (h', a')) /\
         (h ⊆ h') /\
         (a' ∉ dom h) /\
         forall h2, Heap.keeps_new h h' h2 -> Heap.table_view h2 a' = Some tbl
  else Heap.structuredClone h a = Some (Throws DataCloneError).
Proof.
  intros Htbl. apply table_view_Some in Htbl. destruct Htbl as (slots & Ha & Hslots).
  apply mapM_Some in Hslots. unfold Heap.structuredClone. rewrite Ha.
  pose proof (clone_slots_spec slots h tbl Hslots) as Hone.
  destruct (Heap.cloneable_table tbl); [|rewrite Hone; reflexivity].
  destruct Hone as (h1 & slots' & -> & Hsub1 & Hkeep1).
  destruct (alloc_spec h1 (Heap.ORules slots')) as (Hsub2 & Hnew2 & Hcell2).
  destruct (Heap.alloc h1 (Heap.ORules slots')) as [h2 a'] eqn:E. simpl in *.
  exists h2, a'. split; [reflexivity|].
  split; [etransitivity; eassumption|].
  assert (Hnew : a' ∉ dom h).
  { intros Hin. apply Hnew2. apply (subseteq_dom _ _ Hsub1). exact Hin. }
  split; [exact Hnew|].
  intros hx Hkeep. apply table_view_Some. exists slots'. split.
  - apply (keeps_new_lookup h h2 hx); assumption.
  - apply mapM_Some. apply Hkeep1.
    apply (keeps_new_mono h h h1 h2); [reflexivity|exact Hsub2|exact Hkeep].
Qed.

Lemma keeps_new_refl (h0 h1 : Heap.heap) : Heap.keeps_new h0 h1 h1.
Proof. intros l _ _. reflexivity. Qed.

(** The caller's writes leave the cells it cannot reach as they were. *)
Lemma caller_steps_owned (owned : gset Heap.loc) (h h' : Heap.heap) :
  Heap.caller_steps owned h h' ->
  forall l, l ∈ owned -> h' !! l = h !! l.
Proof.
  induction 1 as [h|h hmid h' Hstep _ IH]; intros p Hp; [reflexivity|].
  rewrite (IH p Hp). destruct Hstep as [h l o Hl].
  apply lookup_insert_ne. intros ->. contradiction.
Qed.

Lemma caller_steps_keeps_new (h0 h1 h2 : Heap.heap) :
  Heap.caller_steps (dom h1 ∖ dom h0) h1 h2 -> Heap.keeps_new h0 h1 h2.
Proof.
  intros Hsteps l Hn Hin. apply (caller_steps_owned _ _ _ Hsteps).
  apply elem_of_difference. auto.
Qed.

(** ** Construction, isolation and what can throw *)

Lemma mapM_id_Some {A} (tbl : list (option A)) (rs : list A) :
  mapM id tbl = Some rs <-> tbl = map Some rs.
Proof.
  rewrite mapM_Some. split.
  - induction 1 as [|s r tbl rs Hs _ IH]; [reflexivity|].
    simpl in *. congruence.
  - intros ->. induction rs; constructor; auto.
Qed.

Lemma find_dense {A} (f : A -> bool) (rs : list A) :
  List.find (fun s => match s with
                      | Some r => f r
                      | None => true
                      end) (map Some rs) =
  match List.find f rs with
  | Some r => Some (Some r)
  | None => None
  end.
Proof.
  induction rs as [|r rs IH]; simpl; [reflexivity|].
  destruct (f r); [reflexivity|exact IH].
Qed.

(** A reference is never [undefined], and neither is what it holds. *)
Lemma heap_is_undefined_resolve (h : Heap.heap) (v : Heap.val) (c : value) :
  Heap.resolve h v = Some c -> Heap.is_undefined v = is_undefined c.
Proof.
  destruct v as [x|l]; simpl; [congruence|].
  destruct (h !! l) as [[fs| | |]|]; try discriminate.
  intros [= <-]. reflexivity.
Qed.

Section HeapProperties.

Variable deepEqual : value -> value -> bool.

(** A pop is decided by the table the rule array holds and by the contents
    of the top element and of the attempt. *)
Lemma heap_pop_same (h h' : Heap.heap) (a : Heap.loc)
  (tbl : list (option CounterweightRule)) (its : list Heap.val) (x : Heap.val) :
  Heap.table_view h a = Some tbl ->
  Heap.table_view h' a = Some tbl ->
  Forall (fun v => is_Some (Heap.resolve h v) /\
                   Heap.resolve h' v = Heap.resolve h v) (x :: its) ->
  Heap.pop deepEqual x h' (Heap.mkInstance its a) =
  Heap.pop deepEqual x h (Heap.mkInstance its a).
Proof.
  intros Htbl Htbl' Hall. destruct its as [|t its _] using rev_ind; [reflexivity|].
  apply Forall_cons in Hall. destruct Hall as [[[xv Hx] Hx'] Hits].
  apply Forall_app in Hits. destruct Hits as [_ Ht].
  apply Forall_cons in Ht. destruct Ht as [[[tv Ht] Ht'] _].
  rewrite Hx in Hx'. rewrite Ht in Ht'.
  rewrite !heap_pop_snoc.
  rewrite (heap_isValidCounterweight_view deepEqual h' (Heap.mkInstance (its ++ [t]) a)
             tbl t x tv xv Htbl' Ht' Hx').
  rewrite (heap_isValidCounterweight_view deepEqual h (Heap.mkInstance (its ++ [t]) a)
             tbl t x tv xv Htbl Ht Hx).
  reflexivity.
Qed.

(** On a typed rule array the constructor returns, with the table the array
    held, whether or not [structuredClone] throws. *)
Lemma constructor_returns (h : Heap.heap) (a : Heap.loc)
  (tbl : list (option CounterweightRule)) :
  Heap.table_view h a = Some tbl ->
  exists h' o log,
    Heap.constructor h a = Some (Returns (h', o, log)) /\
    Heap.inst_items o = [] /\
    Heap.table_view h' (Heap.inst_rules o) = Some tbl.
Proof.
  intros Htbl. unfold Heap.constructor.
  pose proof (structuredClone_spec h a tbl Htbl) as Hclone.
  destruct (Heap.cloneable_table tbl).
  - destruct Hclone as (h' & a' & -> & _ & _ & Hkeep).
    exists h', (Heap.mkInstance [] a'), []. split; [reflexivity|].
    split; [reflexivity|]. apply Hkeep. apply keeps_new_refl.
  - rewrite Hclone. apply table_view_Some in Htbl.
    destruct Htbl as (slots & Ha & Hslots).
    unfold Heap.spread. rewrite Ha.
    destruct (alloc_spec h (Heap.ORules slots)) as (Hsub & Hnew & Hcell).
    destruct (Heap.alloc h (Heap.ORules slots)) as [h' a'] eqn:E. simpl in *.
    exists h', (Heap.mkInstance [] a'), [Heap.warning]. split; [reflexivity|].
    split; [reflexivity|]. apply table_view_Some. exists slots.
    split; [exact Hcell|].
    eapply Forall2_impl; [exact Hslots|]. intros s v.
    apply slot_view_weaken. exact Hsub.
Qed.

(** C9 (as amended): when [structuredClone] succeeded at construction, the
    instance reads the rule table the caller's array held then, whatever the
    caller later writes to its rule array, its rule objects, their
    counterweights arrays, their elements or any other object it can reach;
    and a pop returns and leaves what it would have, provided the elements
    on the stack and the attempt, which the instance holds by reference,
    still hold what they held. *)
Theorem clone_isolates_rules
  (h0 : Heap.heap) (a : Heap.loc) (tbl : list (option CounterweightRule))
  (h1 : Heap.heap) (a' : Heap.loc) :
  Heap.table_view h0 a = Some tbl ->
  Heap.structuredClone h0 a = Some (Returns (h1, a')) ->
  Heap.constructor h0 a = Some (Returns (h1, Heap.mkInstance [] a', [])) /\
  Heap.table_view h1 a' = Some tbl /\
  forall h2,
    Heap.caller_steps (dom h1 ∖ dom h0) h1 h2 ->
    Heap.table_view h2 a' = Some tbl /\
    forall its x,
      Forall (fun v => is_Some (Heap.resolve h1 v) /\
                       Heap.resolve h2 v = Heap.resolve h1 v) (x :: its) ->
      Heap.pop deepEqual x h2 (Heap.mkInstance its a') =
      Heap.pop deepEqual x h1 (Heap.mkInstance its a').
Proof.
  intros Htbl Hclone.
  pose proof (structuredClone_spec h0 a tbl Htbl) as Hspec.
  destruct (Heap.cloneable_table tbl); [|congruence].
  destruct Hspec as (h' & a'' & Hret & _ & _ & Hkeep).
  rewrite Hclone in Hret. injection Hret as <- <-.
  assert (Htbl1 : Heap.table_view h1 a' = Some tbl)
    by (apply Hkeep, keeps_new_refl).
  split; [unfold Heap.constructor; rewrite Hclone; reflexivity|].
  split; [exact Htbl1|].
  intros h2 Hsteps.
  assert (Htbl2 : Heap.table_view h2 a' = Some tbl)
    by (apply Hkeep, caller_steps_keeps_new, Hsteps).
  split; [exact Htbl2|].
  intros its x Hall. apply (heap_pop_same h1 h2 a' tbl); assumption.
Qed.

End HeapProperties.

(** ** The engine is the class on typed memory without holes *)

Lemma engine_view_Some (h : Heap.heap) (o : Heap.instance) (this : CounterweightStack) :
  Heap.engine_view h o = Some this <->
  mapM (Heap.resolve h) (Heap.inst_items o) = Some (items this) /\
  Heap.table_view h (Heap.inst_rules o) = Some (map Some (rules this)).
Proof.
  unfold Heap.engine_view. destruct this as [its rs]. simpl. split.
  - destruct (mapM (Heap.resolve h) (Heap.inst_items o)) as [its'|]; [|discriminate].
    destruct (Heap.table_view h (Heap.inst_rules o)) as [tbl|]; [|discriminate].
    destruct (mapM id tbl) as [rs'|] eqn:Hd; [|discriminate].
    intros [= -> ->]. apply mapM_id_Some in Hd. subst tbl. auto.
  - intros [-> ->].
    rewrite (proj2 (mapM_id_Some (map Some rs) rs) eq_refl). reflexivity.
Qed.

Lemma mapM_resolve_snoc (h : Heap.heap) (its : list Heap.val) (t : Heap.val)
  (vs : list value) :
  mapM (Heap.resolve h) (its ++ [t]) = Some vs <->
  exists vs0 tv,
    vs = vs0 ++ [tv] /\
    mapM (Heap.resolve h) its = Some vs0 /\
    Heap.resolve h t = Some tv.
Proof.
  rewrite mapM_Some. split.
  - intros H. apply Forall2_app_inv_l in H.
    destruct H as (vs0 & vs1 & H0 & H1 & ->).
    inversion H1 as [|? tv ? ? Ht Hnil]; subst. inversion Hnil; subst.
    exists vs0, tv. split; [reflexivity|]. split; [apply mapM_Some; exact H0|exact Ht].
  - intros (vs0 & tv & -> & H0 & Ht). apply Forall2_app.
    + apply mapM_Some. exact H0.
    + constructor; [exact Ht|constructor].
Qed.

Section EngineAgreement.

Variable deepEqual : value -> value -> bool.

Lemma engine_agrees_pop (h : Heap.heap) (o : Heap.instance) (this : CounterweightStack)
  (x : Heap.val) (xv : value) :
  Heap.engine_view h o = Some this ->
  Heap.resolve h x = Some xv ->
  exists v o' w this',
    Heap.pop deepEqual x h o = Some (Returns (v, o')) /\
    pop deepEqual xv this = Returns (w, this') /\
    Heap.resolve h v = Some w /\
    Heap.engine_view h o' = Some this'.
Proof.
  intros Hview Hx. pose proof Hview as Hview0.
  apply engine_view_Some in Hview. destruct Hview as [Hits Htbl].
  destruct o as [its a], this as [vs rs]. simpl in *.
  destruct its as [|t its _] using rev_ind.
  - apply mapM_Some in Hits. inversion Hits; subst.
    exists Heap.undefined, (Heap.mkInstance [] a), VUndefined, (mkStack [] rs).
    split; [reflexivity|]. split; [reflexivity|]. split; [reflexivity|exact Hview0].
  - apply mapM_resolve_snoc in Hits. destruct Hits as (vs0 & tv & -> & Hits & Ht).
    rewrite heap_pop_snoc, pop_snoc.
    rewrite (heap_is_undefined_resolve h t tv Ht).
    rewrite (heap_isValidCounterweight_view deepEqual h (Heap.mkInstance (its ++ [t]) a)
               (map Some rs) t x tv xv Htbl Ht Hx).
    rewrite (find_dense (fun r => deepEqual (mainElement r) tv) rs).
    assert (Hpopped : Heap.engine_view h (Heap.mkInstance its a) = Some (mkStack vs0 rs))
      by (apply engine_view_Some; auto).
    destruct (is_undefined tv).
    { exists Heap.undefined, (Heap.mkInstance (its ++ [t]) a), VUndefined,
        (mkStack (vs0 ++ [tv]) rs). auto. }
    destruct (List.find _ rs) as [r|].
    + destruct (existsb _ (counterweights r)).
      * exists t, (Heap.mkInstance its a), tv, (mkStack vs0 rs). auto.
      * exists Heap.undefined, (Heap.mkInstance (its ++ [t]) a), VUndefined,
          (mkStack (vs0 ++ [tv]) rs). auto.
    + exists Heap.undefined, (Heap.mkInstance (its ++ [t]) a), VUndefined,
        (mkStack (vs0 ++ [tv]) rs). auto.
Qed.

Lemma engine_agrees_peek (h : Heap.heap) (o : Heap.instance) (this : CounterweightStack) :
  Heap.engine_view h o = Some this ->
  exists v w,
    Heap.peek h o = Some (Returns (v, o)) /\
    peek this = Returns (w, this) /\
    Heap.resolve h v = Some w.
Proof.
  intros Hview. apply engine_view_Some in Hview. destruct Hview as [Hits Htbl].
  destruct o as [its a], this as [vs rs]. simpl in *.
  destruct its as [|t its _] using rev_ind.
  - apply mapM_Some in Hits. inversion Hits; subst.
    exists Heap.undefined, VUndefined. auto.
  - apply mapM_resolve_snoc in Hits. destruct Hits as (vs0 & tv & -> & Hits & Ht).
    exists t, tv. rewrite heap_peek_snoc, peek_snoc. auto.
Qed.

Lemma engine_agrees_compareTop (h : Heap.heap) (o : Heap.instance)
  (this : CounterweightStack) (item : Heap.val) (iv : value) :
  Heap.engine_view h o = Some this ->
  Heap.resolve h item = Some iv ->
  exists b,
    Heap.compareTop deepEqual item h o = Some (Returns (b, o)) /\
    compareTop deepEqual iv this = Returns (b, this).
Proof.
  intros Hview Hitem. apply engine_view_Some in Hview. destruct Hview as [Hits Htbl].
  destruct o as [its a], this as [vs rs]. simpl in *.
  destruct its as [|t its _] using rev_ind.
  - apply mapM_Some in Hits. inversion Hits; subst.
    exists false. split; reflexivity.
  - apply mapM_resolve_snoc in Hits. destruct Hits as (vs0 & tv & -> & Hits & Ht).
    exists (deepEqual tv iv).
    rewrite heap_compareTop_snoc, compareTop_snoc, Ht, Hitem. auto.
Qed.

Lemma engine_agrees_push (h : Heap.heap) (o : Heap.instance) (this : CounterweightStack)
  (item : Heap.val) (iv : value) :
  Heap.engine_view h o = Some this ->
  Heap.resolve h item = Some iv ->
  exists o' this',
    Heap.push item h o = Some (Returns (tt, o')) /\
    push iv this = Returns (tt, this') /\
    Heap.engine_view h o' = Some this'.
Proof.
  intros Hview Hitem. apply engine_view_Some in Hview. destruct Hview as [Hits Htbl].
  exists (Heap.mkInstance (Heap.inst_items o ++ [item]) (Heap.inst_rules o)),
    (mkStack (items this ++ [iv]) (rules this)).
  split; [reflexivity|]. split; [reflexivity|].
  apply engine_view_Some. simpl. split; [|exact Htbl].
  apply mapM_resolve_snoc. eauto.
Qed.

Lemma engine_agrees_clear (h : Heap.heap) (o : Heap.instance) (this : CounterweightStack) :
  Heap.engine_view h o = Some this ->
  exists o' this',
    Heap.clear h o = Some (Returns (tt, o')) /\
    clear this = Returns (tt, this') /\
    Heap.engine_view h o' = Some this'.
Proof.
  intros Hview. apply engine_view_Some in Hview. destruct Hview as [Hits Htbl].
  exists (Heap.mkInstance [] (Heap.inst_rules o)), (mkStack [] (rules this)).
  split; [reflexivity|]. split; [reflexivity|].
  apply engine_view_Some. simpl. auto.
Qed.

Lemma engine_agrees_size (h : Heap.heap) (o : Heap.instance) (this : CounterweightStack) :
  Heap.engine_view h o = Some this ->
  exists n,
    Heap.size h o = Some (Returns (n, o)) /\
    size this = Returns (n, this) /\
    Heap.isEmpty h o = Some (Returns (Nat.eqb n 0, o)) /\
    isEmpty this = Returns (Nat.eqb n 0, this).
Proof.
  intros Hview. apply engine_view_Some in Hview. destruct Hview as [Hits _].
  apply mapM_Some in Hits. apply Forall2_length in Hits.
  exists (length (Heap.inst_items o)).
  split; [reflexivity|]. rewrite size_eq, isEmpty_eq, Hits.
  split; [reflexivity|]. split; [|reflexivity].
  cbv beta iota delta [Heap.isEmpty Heap.bind Heap.get_items Heap.ret].
  rewrite Hits. reflexivity.
Qed.

End EngineAgreement.

Section HeapClaims.

Variable deepEqual : value -> value -> bool.

(** C7 (as amended): on a rule array that holds a rule object at every
    index, with elements that are values or element objects and a
    comparator that returns, no public operation throws.  The constructor
    returns an instance, also on a sparse array and also when
    [structuredClone] throws; every method returns in every state of the
    instance; and a pop that is rejected, because the stack is empty,
    because no rule matches the top, or because the attempt is in no
    counterweights list of the matched rule, returns [undefined] and
    changes nothing. *)
Theorem no_operation_throws :
  (forall h a tbl,
     Heap.table_view h a = Some tbl ->
     exists h' o log,
       Heap.constructor h a = Some (Returns (h', o, log)) /\
       Heap.inst_items o = [] /\
       Heap.table_view h' (Heap.inst_rules o) = Some tbl) /\
  (forall h o this,
     Heap.engine_view h o = Some this ->
     (forall item, exists o', Heap.push item h o = Some (Returns (tt, o'))) /\
     (forall x, is_Some (Heap.resolve h x) ->
                exists v o', Heap.pop deepEqual x h o = Some (Returns (v, o'))) /\
     (exists v, Heap.peek h o = Some (Returns (v, o))) /\
     (exists b, Heap.isEmpty h o = Some (Returns (b, o))) /\
     (exists n, Heap.size h o = Some (Returns (n, o))) /\
     (exists o', Heap.clear h o = Some (Returns (tt, o'))) /\
     (forall item, is_Some (Heap.resolve h item) ->
                   exists b, Heap.compareTop deepEqual item h o = Some (Returns (b, o)))) /\
  (forall h a x,
     Heap.pop deepEqual x h (Heap.mkInstance [] a) =
       Some (Returns (Heap.undefined, Heap.mkInstance [] a))) /\
  (forall h its t a rs tv x xv,
     Heap.table_view h a = Some (map Some rs) ->
     Heap.resolve h t = Some tv ->
     Heap.resolve h x = Some xv ->
     (forall r, In r rs -> deepEqual (mainElement r) tv = false) ->
     Heap.pop deepEqual x h (Heap.mkInstance (its ++ [t]) a) =
       Some (Returns (Heap.undefined, Heap.mkInstance (its ++ [t]) a))) /\
  (forall h its t a pre r post tv x xv,
     Heap.table_view h a = Some (map Some (pre ++ r :: post)) ->
     Heap.resolve h t = Some tv ->
     Heap.resolve h x = Some xv ->
     Forall (fun r' => deepEqual (mainElement r') tv = false) pre ->
     deepEqual (mainElement r) tv = true ->
     (forall cw, In cw (counterweights r) -> deepEqual cw xv = false) ->
     Heap.pop deepEqual x h (Heap.mkInstance (its ++ [t]) a) =
       Some (Returns (Heap.undefined, Heap.mkInstance (its ++ [t]) a))).
Proof.
  split; [exact constructor_returns|].
  split; [|split; [reflexivity|split]].
  - intros h o this Hview. repeat split.
    + intros item. eexists. reflexivity.
    + intros x [xv Hx].
      destruct (engine_agrees_pop deepEqual h o this x xv Hview Hx)
        as (v & o' & _ & _ & Hpop & _). eauto.
    + destruct (engine_agrees_peek h o this Hview) as (v & _ & Hpeek & _). eauto.
    + destruct (engine_agrees_size h o this Hview) as (n & _ & _ & Hempty & _). eauto.
    + destruct (engine_agrees_size h o this Hview) as (n & Hsize & _). eauto.
    + eexists. reflexivity.
    + intros item [iv Hitem].
      destruct (engine_agrees_compareTop deepEqual h o this item iv Hview Hitem)
        as (b & Hcmp & _). eauto.
  - intros h its t a rs tv x xv Htbl Ht Hx Hnone.
    rewrite heap_pop_snoc.
    rewrite (heap_isValidCounterweight_view deepEqual h (Heap.mkInstance (its ++ [t]) a)
               (map Some rs) t x tv xv Htbl Ht Hx).
    rewrite (find_dense (fun r => deepEqual (mainElement r) tv) rs).
    rewrite (find_no_match (fun r => deepEqual (mainElement r) tv) rs Hnone).
    destruct (Heap.is_undefined t); reflexivity.
  - intros h its t a pre r post tv x xv Htbl Ht Hx Hpre Hr Hnone.
    rewrite heap_pop_snoc.
    rewrite (heap_isValidCounterweight_view deepEqual h (Heap.mkInstance (its ++ [t]) a)
               (map Some (pre ++ r :: post)) t x tv xv Htbl Ht Hx).
    rewrite (find_dense (fun r => deepEqual (mainElement r) tv) (pre ++ r :: post)).
    rewrite (find_first (fun r' => deepEqual (mainElement r') tv) pre r post Hpre Hr).
    destruct (existsb (fun c => deepEqual c xv) (counterweights r)) eqn:E.
    + apply existsb_exists in E. destruct E as (cw & Hin & Hcw).
      rewrite (Hnone cw Hin) in Hcw. discriminate.
    + destruct (Heap.is_undefined t); reflexivity.
Qed.

(** X8: construction leaves the caller's objects as they are.  On a typed
    rule array the constructor returns an empty instance whose rule array is
    a newly allocated cell, every cell of the caller's memory keeps its
    contents, and the warning is written to the console exactly when some
    rule holds a value [structuredClone] cannot copy. *)
Theorem constructor_extends_heap
  (h : Heap.heap) (a : Heap.loc) (tbl : list (option CounterweightRule))
  (h' : Heap.heap) (o : Heap.instance) (log : list string) :
  Heap.table_view h a = Some tbl ->
  Heap.constructor h a = Some (Returns (h', o, log)) ->
  (h ⊆ h') /\
  (Heap.inst_rules o ∉ dom h) /\
  Heap.inst_items o = [] /\
  Heap.table_view h' (Heap.inst_rules o) = Some tbl /\
  (log = [] <-> Heap.cloneable_table tbl = true) /\
  (log = [Heap.warning] <-> Heap.cloneable_table tbl = false).
Proof.
  intros Htbl. unfold Heap.constructor.
  pose proof (structuredClone_spec h a tbl Htbl) as Hclone.
  destruct (Heap.cloneable_table tbl).
  - destruct Hclone as (h1 & a1 & -> & Hsub & Hnew & Hkeep).
    intros [= <- <- <-]. simpl.
    repeat split; auto; try discriminate. apply Hkeep, keeps_new_refl.
  - rewrite Hclone. apply table_view_Some in Htbl.
    destruct Htbl as (slots & Ha & Hslots).
    unfold Heap.spread. rewrite Ha.
    destruct (alloc_spec h (Heap.ORules slots)) as (Hsub & Hnew & Hcell).
    destruct (Heap.alloc h (Heap.ORules slots)) as [h1 a1] eqn:E. simpl in *.
    intros [= <- <- <-]. simpl.
    repeat split; auto; try discriminate.
    apply table_view_Some. exists slots. split; [exact Hcell|].
    eapply Forall2_impl; [exact Hslots|]. intros s v.
    apply slot_view_weaken. exact Hsub.
Qed.


End HeapClaims.

(** ** Sessions of calls and caller writes *)

Section HeapSessions.

Variable deepEqual : value -> value -> bool.

Lemma heap_pop_cases (x : Heap.val) (h : Heap.heap) (o o' : Heap.instance) (v : Heap.val) :
  Heap.pop deepEqual x h o = Some (Returns (v, o')) ->
  o' = o \/
  exists t, Heap.inst_items o = Heap.inst_items o' ++ [t] /\
            Heap.inst_rules o' = Heap.inst_rules o.
Proof.
  destruct o as [its a]. destruct its as [|t its _] using rev_ind.
  - rewrite heap_pop_nil. intros [= <- <-]. left. reflexivity.
  - rewrite heap_pop_snoc. destruct (Heap.is_undefined t).
    + intros [= <- <-]. left. reflexivity.
    + destruct (Heap.isValidCounterweight deepEqual t x h _) as [[[[|] o1]|e]|];
        try discriminate; intros [= <- <-].
      * right. exists t. split; reflexivity.
      * left. reflexivity.
Qed.

Lemma heap_peek_unchanged (h : Heap.heap) (o : Heap.instance) :
  exists v, Heap.peek h o = Some (Returns (v, o)).
Proof.
  destruct o as [its a]. destruct its as [|t its _] using rev_ind.
  - eexists. reflexivity.
  - eexists. apply heap_peek_snoc.
Qed.

Lemma heap_compareTop_unchanged (item : Heap.val) (h : Heap.heap) (o o' : Heap.instance)
  (b : bool) :
  Heap.compareTop deepEqual item h o = Some (Returns (b, o')) -> o' = o.
Proof.
  destruct o as [its a]. destruct its as [|t its _] using rev_ind.
  - intros [= _ <-]. reflexivity.
  - rewrite heap_compareTop_snoc.
    destruct (Heap.resolve h t); [|discriminate].
    destruct (Heap.resolve h item); [|discriminate].
    intros [= _ <-]. reflexivity.
Qed.

(** A call keeps the rule array and leaves on the stack only elements that
    were there or that it was passed. *)
Lemma heap_invoke_items (elems : gset Heap.loc) (c : Heap.method)
  (h : Heap.heap) (o o' : Heap.instance) (v : Heap.val) :
  Heap.invoke deepEqual c h o = Some (Returns (v, o')) ->
  Forall (Heap.element_in elems) (Heap.inst_items o) ->
  Heap.argument_in elems c ->
  Heap.inst_rules o' = Heap.inst_rules o /\
  Forall (Heap.element_in elems) (Heap.inst_items o').
Proof.
  intros Hc Hits Harg. destruct c as [item|x| | | | |item]; cbn [Heap.invoke] in Hc.
  - injection Hc as <- <-. simpl. split; [reflexivity|].
    apply Forall_app. split; [exact Hits|]. constructor; [exact Harg|constructor].
  - destruct (heap_pop_cases x h o o' v Hc) as [->|(t & Hitems & Hrules)]; [auto|].
    split; [exact Hrules|]. rewrite Hitems in Hits.
    apply Forall_app in Hits. apply Hits.
  - destruct (heap_peek_unchanged h o) as [w Hw]. rewrite Hw in Hc.
    injection Hc as <- <-. auto.
  - injection Hc as <- <-. auto.
  - injection Hc as <- <-. auto.
  - injection Hc as <- <-. simpl. auto.
  - unfold Heap.bind in Hc.
    destruct (Heap.compareTop deepEqual item h o) as [[[b o1]|e]|] eqn:E;
      try discriminate.
    apply heap_compareTop_unchanged in E. subst o1.
    injection Hc as <- <-. auto.
Qed.

(** A call returns the same on two memories that hold the same rule table
    and the same element objects. *)
Lemma heap_invoke_same (h h' : Heap.heap) (a : Heap.loc)
  (tbl : list (option CounterweightRule)) (elems : gset Heap.loc)
  (c : Heap.method) (its : list Heap.val) :
  Heap.table_view h a = Some tbl ->
  Heap.table_view h' a = Some tbl ->
  (forall l, l ∈ elems -> exists fs, h !! l = Some (Heap.OElem fs)) ->
  (forall l, l ∈ elems -> h' !! l = h !! l) ->
  Forall (Heap.element_in elems) its ->
  Heap.argument_in elems c ->
  Heap.invoke deepEqual c h' (Heap.mkInstance its a) =
  Heap.invoke deepEqual c h (Heap.mkInstance its a).
Proof.
  intros Htbl Htbl' Htyped Hsame Hits Harg.
  assert (Hres : forall v, Heap.element_in elems v ->
                   is_Some (Heap.resolve h v) /\
                   Heap.resolve h' v = Heap.resolve h v).
  { intros [x|l] Hv; simpl; [eauto|].
    rewrite (Hsame l Hv). destruct (Htyped l Hv) as [fs ->]. eauto. }
  destruct c as [item|x| | | | |item]; cbn [Heap.invoke].
  - reflexivity.
  - apply (heap_pop_same deepEqual h h' a tbl); [exact Htbl|exact Htbl'|].
    constructor; [apply Hres; exact Harg|].
    eapply Forall_impl; [exact Hits|]. exact Hres.
  - destruct its as [|t its _] using rev_ind; [reflexivity|].
    rewrite !heap_peek_snoc. reflexivity.
  - reflexivity.
  - reflexivity.
  - reflexivity.
  - unfold Heap.bind.
    destruct its as [|t its _] using rev_ind; [reflexivity|].
    rewrite !heap_compareTop_snoc.
    apply Forall_app in Hits. destruct Hits as [_ Ht].
    apply Forall_cons in Ht. destruct Ht as [Ht _].
    rewrite (proj2 (Hres t Ht)), (proj2 (Hres item Harg)). reflexivity.
Qed.

(** X10: after a successful clone the caller's writes cannot be told from
    no writes at all, as long as they stay off the element objects the
    caller has handed to the instance.  A session of calls interleaved with
    writes by the caller, to its rule array, its rule objects, their
    counterweights arrays, their elements or any other object outside
    [elems], ends as the same calls end when the caller writes nothing, and
    returns call by call the same. *)
Theorem clone_session_isolated
  (h0 : Heap.heap) (a : Heap.loc) (tbl : list (option CounterweightRule))
  (h1 : Heap.heap) (a' : Heap.loc) (elems : gset Heap.loc)
  (es : list Heap.event) (its : list Heap.val) :
  Heap.table_view h0 a = Some tbl ->
  Heap.structuredClone h0 a = Some (Returns (h1, a')) ->
  (forall l, l ∈ elems -> exists fs, h1 !! l = Some (Heap.OElem fs)) ->
  Forall (Heap.element_in elems) its ->
  Heap.session_within ((dom h1 ∖ dom h0) ∪ elems) elems es ->
  Heap.session deepEqual es h1 (Heap.mkInstance its a') =
  Heap.session deepEqual (Heap.calls es) h1 (Heap.mkInstance its a').
Proof.
  intros Htbl Hclone Htyped Hits Hes.
  pose proof (structuredClone_spec h0 a tbl Htbl) as Hspec.
  destruct (Heap.cloneable_table tbl); [|congruence].
  destruct Hspec as (h' & a'' & Hret & _ & _ & Hkeep).
  rewrite Hclone in Hret. injection Hret as <- <-.
  assert (Htbl1 : Heap.table_view h1 a' = Some tbl) by (apply Hkeep, keeps_new_refl).
  assert (Hgen : forall h its,
             (forall l, l ∈ (dom h1 ∖ dom h0) ∪ elems -> h !! l = h1 !! l) ->
             Forall (Heap.element_in elems) its ->
             Heap.session deepEqual es h (Heap.mkInstance its a') =
             Heap.session deepEqual (Heap.calls es) h1 (Heap.mkInstance its a')).
  { clear its Hits. induction es as [|[l ob|c] es IH]; intros h its Hsame Hits.
    - reflexivity.
    - destruct Hes as [Hl Hes]. cbn [Heap.session Heap.calls].
      apply (IH Hes); [|exact Hits]. intros p Hp. rewrite <- (Hsame p Hp).
      apply lookup_insert_ne. intros ->. contradiction.
    - destruct Hes as [Harg Hes]. cbn [Heap.session Heap.calls].
      assert (Htblh : Heap.table_view h a' = Some tbl).
      { apply Hkeep. intros p Hn Hin. apply Hsame.
        apply elem_of_union_l, elem_of_difference. auto. }
      rewrite (heap_invoke_same h1 h a' tbl elems c its Htbl1 Htblh Htyped);
        [|intros p Hp; apply Hsame, elem_of_union_r, Hp|exact Hits|exact Harg].
      destruct (Heap.invoke deepEqual c h1 (Heap.mkInstance its a'))
        as [[[v [its1 a1]]|e]|] eqn:Hc; try reflexivity.
      destruct (heap_invoke_items elems c h1 _ _ v Hc Hits Harg) as [Hrules Hits1].
      simpl in Hrules, Hits1. subst a1.
      rewrite (IH Hes h its1 Hsame Hits1). reflexivity. }
  apply Hgen; [reflexivity|exact Hits].
Qed.

(** X12: on typed memory whose rule array has no hole, each method does in
    memory what the engine does on the contents of the elements: the same
    result, by the contents of the element returned, and the same stack
    and rules afterwards. *)
Theorem engine_agrees (h : Heap.heap) (o : Heap.instance) (this : CounterweightStack) :
  Heap.engine_view h o = Some this ->
  (forall x xv,
     Heap.resolve h x = Some xv ->
     exists v o' w this',
       Heap.pop deepEqual x h o = Some (Returns (v, o')) /\
       pop deepEqual xv this = Returns (w, this') /\
       Heap.resolve h v = Some w /\
       Heap.engine_view h o' = Some this') /\
  (forall item iv,
     Heap.resolve h item = Some iv ->
     exists o' this',
       Heap.push item h o = Some (Returns (tt, o')) /\
       push iv this = Returns (tt, this') /\
       Heap.engine_view h o' = Some this') /\
  (exists v w,
     Heap.peek h o = Some (Returns (v, o)) /\
     peek this = Returns (w, this) /\
     Heap.resolve h v = Some w) /\
  (exists n,
     Heap.size h o = Some (Returns (n, o)) /\
     size this = Returns (n, this) /\
     Heap.isEmpty h o = Some (Returns (Nat.eqb n 0, o)) /\
     isEmpty this = Returns (Nat.eqb n 0, this)) /\
  (exists o' this',
     Heap.clear h o = Some (Returns (tt, o')) /\
     clear this = Returns (tt, this') /\
     Heap.engine_view h o' = Some this') /\
  (forall item iv,
     Heap.resolve h item = Some iv ->
     exists b,
       Heap.compareTop deepEqual item h o = Some (Returns (b, o)) /\
       compareTop deepEqual iv this = Returns (b, this)).
Proof.
  intros Hview. repeat split.
  - intros x xv. apply engine_agrees_pop. exact Hview.
  - intros item iv. apply engine_agrees_push. exact Hview.
  - apply engine_agrees_peek. exact Hview.
  - apply engine_agrees_size. exact Hview.
  - apply engine_agrees_clear. exact Hview.
  - intros item iv. apply engine_agrees_compareTop. exact Hview.
Qed.

End HeapSessions.

(** * The class in memory at the inputs of the usage example *)

(** Construction on the example's rules clones them; on rules that carry
    functions it falls back to the shallow copy and warns. *)
Example run_constructor :
  (exists h1, Heap.constructor callerHeap myRulesRef =
                Some (Returns (h1, Heap.mkInstance [] 25%positive, [])) /\
              Heap.table_view h1 25%positive = Some (map Some myRules)) /\
  Heap.structuredClone handlerHeap 1%positive = Some (Throws DataCloneError) /\
  Heap.constructor handlerHeap 1%positive =
    Some (Returns (<[12%positive := Heap.ORules [Some 2%positive]]> handlerHeap,
                   Heap.mkInstance [] 12%positive, [Heap.warning])).
Proof.
  split; [|split].
  - eexists. split; vm_compute; reflexivity.
  - vm_compute. reflexivity.
  - vm_compute. reflexivity.
Qed.

(** After the fallback the instance reads the caller's objects: a write by
    the caller to an element of a counterweights array, which leaves the
    rule objects alone, changes what a pop returns. *)
Example shallow_copy_shares_elements :
  Heap.caller_steps {[12%positive]}
    (<[12%positive := Heap.ORules [Some 2%positive]]> handlerHeap)
    (<[11%positive := Heap.OElem [("name", VStr "shut"); ("run", VFun 1)]]>
       (<[12%positive := Heap.ORules [Some 2%positive]]> handlerHeap)) /\
  Heap.pop deepEqual_structural (Heap.Imm onClose)
    (<[12%positive := Heap.ORules [Some 2%positive]]> handlerHeap)
    (Heap.mkInstance [Heap.Ref 10%positive] 12%positive) =
    Some (Returns (Heap.Ref 10%positive, Heap.mkInstance [] 12%positive)) /\
  Heap.pop deepEqual_structural (Heap.Imm onClose)
    (<[11%positive := Heap.OElem [("name", VStr "shut"); ("run", VFun 1)]]>
       (<[12%positive := Heap.ORules [Some 2%positive]]> handlerHeap))
    (Heap.mkInstance [Heap.Ref 10%positive] 12%positive) =
    Some (Returns (Heap.undefined, Heap.mkInstance [Heap.Ref 10%positive] 12%positive)).
Proof.
  split; [|split].
  - apply rtc_once. constructor. rewrite elem_of_singleton. discriminate.
  - vm_compute. reflexivity.
  - vm_compute. reflexivity.
Qed.

(** C7, as stated, fails on a sparse rule array.  The array of
    [sparseHeap] is typed, with index 0 never assigned; construction
    succeeds, and the first pop on a defined top scans the rules, reads
    [mainElement] of the hole and throws a TypeError. *)
Lemma no_operation_throws_counterexample :
  Heap.table_view sparseHeap 1%positive = Some (None :: map Some myRules) /\
  exists h1 o,
    Heap.constructor sparseHeap 1%positive = Some (Returns (h1, o, [])) /\
    Heap.bind (Heap.push beginRef) (fun _ => Heap.pop deepEqual_structural endRef) h1 o =
    Some (Throws TypeError).
Proof.
  split; [vm_compute; reflexivity|].
  eexists _, _. split; vm_compute; reflexivity.
Qed.

(** C9, as stated, fails when the object the caller writes to is on the
    stack.  The deep copy of the example's rules succeeds; the caller pushes
    its begin token, the object its first rule has as [mainElement], and
    then writes to that object through the rule.  The pop with the end
    token, which returned the begin token before the write, now returns
    [undefined] and removes nothing. *)
Lemma clone_isolates_rules_counterexample :
  callerHeap !! 2%positive = Some (Heap.ORule beginRef 4%positive) /\
  exists h1 a',
    Heap.structuredClone callerHeap myRulesRef = Some (Returns (h1, a')) /\
    Heap.caller_steps (dom h1 ∖ dom callerHeap) h1
      (<[10%positive := tokenCell "KEYWORD" "BEGIN"]> h1) /\
    Heap.pop deepEqual_structural endRef h1 (Heap.mkInstance [beginRef] a') =
      Some (Returns (beginRef, Heap.mkInstance [] a')) /\
    Heap.pop deepEqual_structural endRef
      (<[10%positive := tokenCell "KEYWORD" "BEGIN"]> h1)
      (Heap.mkInstance [beginRef] a') =
      Some (Returns (Heap.undefined, Heap.mkInstance [beginRef] a')).
Proof.
  split; [reflexivity|].
  eexists _, _. split; [vm_compute; reflexivity|]. split; [|split].
  - apply rtc_once. constructor. rewrite elem_of_difference.
    intros [_ Hnot]. apply Hnot. apply elem_of_dom. eexists. reflexivity.
  - vm_compute. reflexivity.
  - vm_compute. reflexivity.
Qed.

(** The caller rewrites its first rule object after the clone; the begin
    token on the stack and the end token offered are left alone. *)
Lemma clone_isolates_rules_witness :
  exists h1 a',
    Heap.structuredClone callerHeap myRulesRef = Some (Returns (h1, a')) /\
    Heap.caller_steps (dom h1 ∖ dom callerHeap) h1
      (<[2%positive := Heap.ORule (Heap.Imm VNull) 5%positive]> h1) /\
    Heap.pop deepEqual_structural endRef
      (<[2%positive := Heap.ORule (Heap.Imm VNull) 5%positive]> h1)
      (Heap.mkInstance [beginRef] a') =
    Heap.pop deepEqual_structural endRef h1 (Heap.mkInstance [beginRef] a').
Proof.
  destruct (Heap.structuredClone callerHeap myRulesRef) as [[[h1 a']|e]|] eqn:Hclone;
    [|vm_compute in Hclone; discriminate|vm_compute in Hclone; discriminate].
  pose proof Hclone as Hcomputed. vm_compute in Hcomputed.
  injection Hcomputed as <- <-.
  eexists _, _. split; [reflexivity|].
  match goal with
  | |- Heap.caller_steps ?owned ?h ?h' /\ _ =>
      assert (Hsteps : Heap.caller_steps owned h h')
  end.
  { apply rtc_once. constructor. rewrite elem_of_difference.
    intros [_ Hnot]. apply Hnot. apply elem_of_dom. eexists. reflexivity. }
  split; [exact Hsteps|].
  destruct (clone_isolates_rules deepEqual_structural callerHeap myRulesRef
              (map Some myRules) _ _ eq_refl Hclone) as (_ & _ & Hiso).
  destruct (Hiso _ Hsteps) as [_ Hpop]. apply Hpop.
  repeat constructor; try (eexists; reflexivity); reflexivity.
Defined.

Lemma no_operation_throws_witness :
  Heap.table_view handlerHeap 1%positive = Some [Some (mkRule onOpen [onClose])] /\
  (exists h' o log,
     Heap.constructor handlerHeap 1%positive = Some (Returns (h', o, log)) /\
     Heap.inst_items o = [] /\
     Heap.table_view h' (Heap.inst_rules o) = Some [Some (mkRule onOpen [onClose])]) /\
  Heap.pop deepEqual_structural endRef callerHeap
    (Heap.mkInstance ([] ++ [ifRef]) myRulesRef) =
  Some (Returns (Heap.undefined, Heap.mkInstance ([] ++ [ifRef]) myRulesRef)).
Proof.
  assert (Hread : Heap.table_view handlerHeap 1%positive =
                  Some [Some (mkRule onOpen [onClose])]) by reflexivity.
  destruct (no_operation_throws deepEqual_structural)
    as (Hnew & _ & _ & _ & Hrefused).
  split; [exact Hread|]. split.
  - apply (Hnew handlerHeap 1%positive _ Hread).
  - apply (Hrefused callerHeap [] ifRef myRulesRef
             [mkRule beginToken [endToken; endDotToken]] (mkRule ifToken [thenToken]) []
             ifToken endRef endToken).
    + reflexivity.
    + reflexivity.
    + reflexivity.
    + constructor; [reflexivity|constructor].
    + reflexivity.
    + intros cw [<-|[]]. reflexivity.
Defined.

Lemma constructor_extends_heap_witness :
  Heap.table_view handlerHeap 1%positive = Some [Some (mkRule onOpen [onClose])] /\
  Heap.constructor handlerHeap 1%positive =
    Some (Returns (<[12%positive := Heap.ORules [Some 2%positive]]> handlerHeap,
                   Heap.mkInstance [] 12%positive, [Heap.warning])) /\
  ([Heap.warning] = [Heap.warning] <->
   Heap.cloneable_table [Some (mkRule onOpen [onClose])] = false).
Proof.
  assert (Hread : Heap.table_view handlerHeap 1%positive =
                  Some [Some (mkRule onOpen [onClose])]) by reflexivity.
  assert (Hnew : Heap.constructor handlerHeap 1%positive =
                 Some (Returns (<[12%positive := Heap.ORules [Some 2%positive]]> handlerHeap,
                                Heap.mkInstance [] 12%positive, [Heap.warning])))
    by (vm_compute; reflexivity).
  split; [exact Hread|]. split; [exact Hnew|].
  apply (constructor_extends_heap handlerHeap 1%positive _ _ _ _ Hread Hnew).
Defined.


(** The caller pushes its begin token, rewrites its first rule object and
    the end. token, which it never hands to the instance, and pops. *)
Lemma clone_session_isolated_witness :
  exists h1 a',
    Heap.structuredClone callerHeap myRulesRef = Some (Returns (h1, a')) /\
    Heap.session deepEqual_structural
      [Heap.Call (Heap.Push beginRef);
       Heap.Write 2%positive (Heap.ORule (Heap.Imm VNull) 5%positive);
       Heap.Write 12%positive (tokenCell "KEYWORD" "END.");
       Heap.Call (Heap.Pop endRef)] h1 (Heap.mkInstance [] a') =
    Heap.session deepEqual_structural
      (Heap.calls
         [Heap.Call (Heap.Push beginRef);
          Heap.Write 2%positive (Heap.ORule (Heap.Imm VNull) 5%positive);
          Heap.Write 12%positive (tokenCell "KEYWORD" "END.");
          Heap.Call (Heap.Pop endRef)]) h1 (Heap.mkInstance [] a').
Proof.
  destruct (Heap.structuredClone callerHeap myRulesRef) as [[[h1 a']|e]|] eqn:Hclone;
    [|vm_compute in Hclone; discriminate|vm_compute in Hclone; discriminate].
  exists h1, a'. split; [reflexivity|].
  assert (Htbl : Heap.table_view callerHeap myRulesRef = Some (map Some myRules))
    by reflexivity.
  assert (Hsub : callerHeap ⊆ h1).
  { pose proof (structuredClone_spec callerHeap myRulesRef _ Htbl) as Hspec.
    change (Heap.cloneable_table (map Some myRules)) with true in Hspec.
    destruct Hspec as (h' & a'' & Hret & Hsub & _).
    rewrite Hclone in Hret. injection Hret as <- <-. exact Hsub. }
  assert (Htyped : forall l : Heap.loc,
            l ∈ ({[10%positive; 11%positive]} : gset Heap.loc) ->
            exists fs, h1 !! l = Some (Heap.OElem fs)).
  { intros l Hl. apply elem_of_union in Hl.
    destruct Hl as [Hl|Hl]; apply elem_of_singleton in Hl; subst l;
      eexists; (eapply lookup_weaken; [|exact Hsub]); reflexivity. }
  assert (Hwithin : Heap.session_within
                      ((dom h1 ∖ dom callerHeap) ∪ {[10%positive; 11%positive]})
                      {[10%positive; 11%positive]}
                      [Heap.Call (Heap.Push beginRef);
                       Heap.Write 2%positive (Heap.ORule (Heap.Imm VNull) 5%positive);
                       Heap.Write 12%positive (tokenCell "KEYWORD" "END.");
                       Heap.Call (Heap.Pop endRef)]).
  { assert (H2 : (2%positive : Heap.loc) ∈ dom callerHeap)
      by (apply elem_of_dom; eexists; reflexivity).
    assert (H12 : (12%positive : Heap.loc) ∈ dom callerHeap)
      by (apply elem_of_dom; eexists; reflexivity).
    clear Hclone Hsub Htyped Htbl.
    cbn [Heap.session_within Heap.argument_in Heap.element_in beginRef endRef].
    generalize dependent (dom callerHeap). intros D H2 H12.
    generalize (dom h1). intros D1.
    assert (Hin : forall l : Heap.loc,
              l = 10%positive \/ l = 11%positive ->
              l ∈ ({[10%positive; 11%positive]} : gset Heap.loc)).
    { intros l Hl. rewrite elem_of_union, !elem_of_singleton. exact Hl. }
    assert (Hout : forall l : Heap.loc,
              l ∈ D -> l <> 10%positive -> l <> 11%positive ->
              l ∉ (D1 ∖ D) ∪ ({[10%positive; 11%positive]} : gset Heap.loc)).
    { intros l Hl H10 H11.
      rewrite elem_of_union, elem_of_difference, elem_of_union, !elem_of_singleton.
      intros [[_ Hn]|[?|?]]; contradiction. }
    split; [apply Hin; auto|]. split; [apply Hout; [exact H2|discriminate|discriminate]|].
    split; [apply Hout; [exact H12|discriminate|discriminate]|].
    split; [apply Hin; auto|exact I]. }
  exact (clone_session_isolated deepEqual_structural callerHeap myRulesRef
           (map Some myRules) h1 a' {[10%positive; 11%positive]} _ []
           Htbl Hclone Htyped (List.Forall_nil _) Hwithin).
Defined.

Lemma engine_agrees_witness :
  Heap.engine_view callerHeap (Heap.mkInstance [beginRef; ifRef] myRulesRef) =
    Some (mkStack [beginToken; ifToken] myRules) /\
  exists v o' w this',
    Heap.pop deepEqual_structural thenRef callerHeap
      (Heap.mkInstance [beginRef; ifRef] myRulesRef) = Some (Returns (v, o')) /\
    pop deepEqual_structural thenToken (mkStack [beginToken; ifToken] myRules) =
      Returns (w, this') /\
    Heap.resolve callerHeap v = Some w /\
    Heap.engine_view callerHeap o' = Some this'.
Proof.
  assert (Hview : Heap.engine_view callerHeap
                    (Heap.mkInstance [beginRef; ifRef] myRulesRef) =
                  Some (mkStack [beginToken; ifToken] myRules)) by reflexivity.
  split; [exact Hview|].
  destruct (engine_agrees deepEqual_structural callerHeap _ _ Hview) as (Hpop & _).
  apply (Hpop thenRef thenToken). reflexivity.
Defined.
